(** * Video progress tracker: the viewing coverage engine of [src/App.jsx]

    A shallow embedding of the engine inside the [VideoProgressTracker]
    component: the interval merge ([mergeIntervals]), the unique-time sum
    ([calculateUniqueTime]), the segment recorder ([recordWatchedSegment] and
    the player event handlers), the display effect, the persistence pair
    ([saveProgressToStorage], [loadProgress]), the reset, and what the page
    shows of them ([formatTime], the timeline bars).

    Numbers.  JavaScript numbers that hold media times are modelled as exact
    rationals ([Q]): the finite values, with exact arithmetic.  [NaN], the
    infinities and IEEE rounding are outside the model.

    State.  React state cells, refs, the video element and the single
    [sessionStorage] item are fields of one record; every handler is a
    function from state to state. *)

From Stdlib Require Import ZArith QArith Qround Lqa List Bool Sorted Arith Lia.
From Stdlib Require String DecimalString.
Import ListNotations String.StringSyntax.
Open Scope Q_scope.
Delimit Scope string_scope with string.

(** * The program *)

(** ** Numbers *)

(** [Math.max(a, b)] on finite numbers.  On equal arguments both are the same
    number; the model returns the first. *)
Definition Math_max (a b : Q) : Q := if Qle_bool b a then a else b.

(** [Math.abs(x)]. *)
Definition Math_abs (x : Q) : Q := if Qle_bool 0 x then x else - x.

(** Truthiness of a finite number: every number but zero. *)
Definition truthy (x : Q) : bool := negb (Qeq_bool x 0).

(** [x > y] and [x >= y] as the code tests them. *)
Definition gtb (x y : Q) : bool := negb (Qle_bool x y).
Definition geb (x y : Q) : bool := Qle_bool y x.

(** ** Intervals *)

(** An object [{ start, end }]. *)
Record Interval : Type := mkInterval { start : Q; end_ : Q }.

(** [lastMerged.end = v]: the same object with a new [end]. *)
Definition setEnd (i : Interval) (v : Q) : Interval :=
  {| start := start i; end_ := v |}.

(** The comparator [(a, b) => a.start - b.start]. *)
Definition byStart (a b : Interval) : Q := start a - start b.

(** [Array.prototype.sort] is stable and, for a consistent comparator, its
    result is the one stable ordering; insertion from the right computes it:
    an element goes before the first element it does not compare greater
    than. *)
Fixpoint insert (cmp : Interval -> Interval -> Q) (x : Interval)
  (l : list Interval) : list Interval :=
  match l with
  | [] => [x]
  | y :: r => if Qle_bool (cmp x y) 0 then x :: y :: r else y :: insert cmp x r
  end.

Definition sort (cmp : Interval -> Interval -> Q) (l : list Interval)
  : list Interval :=
  fold_right (insert cmp) [] l.

(** The body of the [for] loop of [mergeIntervals]: [merged] is the array
    built so far, [current] is [sorted[i]].  [merged] is never empty there, so
    the default of [last] is not read.  The assignment to [lastMerged.end]
    writes into an object that the caller's array holds too; the caller, the
    updater of [recordWatchedSegment], returns the merged array as the next
    state and does not read its argument again, so the model gives the new
    object in the result and leaves the argument as it was. *)
Definition mergeStep (merged : list Interval) (current : Interval)
  : list Interval :=
  let lastMerged := last merged current in
  if Qle_bool (start current) (end_ lastMerged + 1)
  then removelast merged
         ++ [setEnd lastMerged (Math_max (end_ lastMerged) (end_ current))]
  else merged ++ [current].

(** [mergeIntervals(intervals)]. *)
Definition mergeIntervals (intervals : list Interval) : list Interval :=
  if (length intervals <=? 1)%nat then intervals
  else
    match sort byStart intervals with
    | [] => []
    | first :: rest => fold_left mergeStep rest [first]
    end.

(** [calculateUniqueTime(intervals)]: a [reduce] from [0]. *)
Definition calculateUniqueTime (intervals : list Interval) : Q :=
  fold_left (fun total interval => total + (end_ interval - start interval))
            intervals 0.

(** [merge(S, I)] of the engine: the updater of [recordWatchedSegment]
    appends the new interval and merges. *)
Definition merge (S : list Interval) (I : Interval) : list Interval :=
  mergeIntervals (S ++ [I]).

(** ** The player, the stored item and the component state *)

(** The fields of the video element that the component reads or writes. *)
Record Video : Type := mkVideo {
  currentTime : Q;
  paused : bool;
  duration : Q
}.

(** The object [progressData] as [JSON.parse] gives it back: a field that the
    payload lacks is [None].  On the finite numbers and the plain arrays of
    the model, [JSON.parse (JSON.stringify x)] is [x]. *)
Module ProgressData.
Record t : Type := mk {
  intervals : option (list Interval);
  lastPosition : option Q;
  totalDuration : option Q;
  sessionTime : option Q;
  timestamp : option Z;
  progressPercentage : option Q
}.
End ProgressData.

(** The item ["videoProgress"] of [sessionStorage]: no item ([getItem] gives
    [null]), a string on which [JSON.parse] or the reads after it throw, or
    a parsed object. *)
Inductive StorageItem : Type :=
| NoItem
| Unparsable
| Item (data : ProgressData.t).

(** The [useState] cells and the [useRef] cells of the component, the video
    element behind [videoRef] and the storage item. *)
Record State : Type := mkState {
  watchedIntervals : list Interval;
  currentProgress : Q;
  uniqueWatchedTime : Q;
  totalDuration : Q;
  sessionWatchedTime : Q;
  isPlaying : bool;
  currentWatchStart : option Q;
  lastPosition : Q;
  hasResumed : bool;
  videoRef : option Video;
  sessionStorage : StorageItem
}.

Definition setWatchedIntervals (v : list Interval) (s : State) : State :=
  mkState v (currentProgress s) (uniqueWatchedTime s) (totalDuration s)
    (sessionWatchedTime s) (isPlaying s) (currentWatchStart s)
    (lastPosition s) (hasResumed s) (videoRef s) (sessionStorage s).

Definition setCurrentProgress (v : Q) (s : State) : State :=
  mkState (watchedIntervals s) v (uniqueWatchedTime s) (totalDuration s)
    (sessionWatchedTime s) (isPlaying s) (currentWatchStart s)
    (lastPosition s) (hasResumed s) (videoRef s) (sessionStorage s).

Definition setUniqueWatchedTime (v : Q) (s : State) : State :=
  mkState (watchedIntervals s) (currentProgress s) v (totalDuration s)
    (sessionWatchedTime s) (isPlaying s) (currentWatchStart s)
    (lastPosition s) (hasResumed s) (videoRef s) (sessionStorage s).

Definition setTotalDuration (v : Q) (s : State) : State :=
  mkState (watchedIntervals s) (currentProgress s) (uniqueWatchedTime s) v
    (sessionWatchedTime s) (isPlaying s) (currentWatchStart s)
    (lastPosition s) (hasResumed s) (videoRef s) (sessionStorage s).

Definition setSessionWatchedTime (v : Q) (s : State) : State :=
  mkState (watchedIntervals s) (currentProgress s) (uniqueWatchedTime s)
    (totalDuration s) v (isPlaying s) (currentWatchStart s)
    (lastPosition s) (hasResumed s) (videoRef s) (sessionStorage s).

Definition setIsPlaying (v : bool) (s : State) : State :=
  mkState (watchedIntervals s) (currentProgress s) (uniqueWatchedTime s)
    (totalDuration s) (sessionWatchedTime s) v (currentWatchStart s)
    (lastPosition s) (hasResumed s) (videoRef s) (sessionStorage s).

Definition setCurrentWatchStart (v : option Q) (s : State) : State :=
  mkState (watchedIntervals s) (currentProgress s) (uniqueWatchedTime s)
    (totalDuration s) (sessionWatchedTime s) (isPlaying s) v
    (lastPosition s) (hasResumed s) (videoRef s) (sessionStorage s).

Definition setLastPosition (v : Q) (s : State) : State :=
  mkState (watchedIntervals s) (currentProgress s) (uniqueWatchedTime s)
    (totalDuration s) (sessionWatchedTime s) (isPlaying s)
    (currentWatchStart s) v (hasResumed s) (videoRef s) (sessionStorage s).

Definition setHasResumed (v : bool) (s : State) : State :=
  mkState (watchedIntervals s) (currentProgress s) (uniqueWatchedTime s)
    (totalDuration s) (sessionWatchedTime s) (isPlaying s)
    (currentWatchStart s) (lastPosition s) v (videoRef s) (sessionStorage s).

Definition setVideoRef (v : option Video) (s : State) : State :=
  mkState (watchedIntervals s) (currentProgress s) (uniqueWatchedTime s)
    (totalDuration s) (sessionWatchedTime s) (isPlaying s)
    (currentWatchStart s) (lastPosition s) (hasResumed s) v (sessionStorage s).

Definition setSessionStorage (v : StorageItem) (s : State) : State :=
  mkState (watchedIntervals s) (currentProgress s) (uniqueWatchedTime s)
    (totalDuration s) (sessionWatchedTime s) (isPlaying s)
    (currentWatchStart s) (lastPosition s) (hasResumed s) (videoRef s) v.

(** [videoRef.current.currentTime = t]. *)
Definition seekTo (t : Q) (v : Video) : Video :=
  mkVideo t (paused v) (duration v).

(** The state of a freshly mounted component: the initial values of the
    cells, the video element attached, whatever item the storage holds. *)
Definition mount (v : Video) (item : StorageItem) : State :=
  mkState [] 0 0 0 0 false None 0 false (Some v) item.

(** ** The segment recorder *)

(** [recordWatchedSegment()].  The updater passed to [setWatchedIntervals]
    runs once on the previous array, and the updater it passes to
    [setSessionWatchedTime] once on the previous session time. *)
Definition recordWatchedSegment (s : State) : State :=
  let s' :=
    match currentWatchStart s, videoRef s with
    | Some start, Some video =>
        let end_ := currentTime video in
        if gtb end_ start && geb (end_ - start) (1#2)
        then
          let newInterval := mkInterval start end_ in
          let merged := mergeIntervals (watchedIntervals s ++ [newInterval]) in
          let sessionTime := end_ - start in
          setSessionWatchedTime (sessionWatchedTime s + sessionTime)
            (setWatchedIntervals merged s)
        else s
    | _, _ => s
    end in
  setCurrentWatchStart None s'.

(** [handlePlay()]. *)
Definition handlePlay (s : State) : State :=
  let s := setIsPlaying true s in
  match videoRef s with
  | Some video => setCurrentWatchStart (Some (currentTime video)) s
  | None => s
  end.

(** [handlePause()]. *)
Definition handlePause (s : State) : State :=
  recordWatchedSegment (setIsPlaying false s).

(** [handleSeeked()]. *)
Definition handleSeeked (s : State) : State :=
  let s := recordWatchedSegment s in
  match videoRef s with
  | Some video =>
      if negb (paused video)
      then setCurrentWatchStart (Some (currentTime video)) s
      else s
  | None => s
  end.

(** [handleTimeUpdate()]. *)
Definition handleTimeUpdate (s : State) : State :=
  match videoRef s with
  | Some video =>
      let currentTime := currentTime video in
      let timeDiff := Math_abs (currentTime - lastPosition s) in
      let s :=
        if gtb timeDiff 2
        then
          let s := recordWatchedSegment s in
          if negb (paused video)
          then setCurrentWatchStart (Some currentTime) s
          else s
        else s in
      setLastPosition currentTime s
  | None => s
  end.

(** [handleEnded()]. *)
Definition handleEnded (s : State) : State :=
  recordWatchedSegment (setIsPlaying false s).

(** ** Persistence *)

(** [x || 0] on a number, and on a field that may be missing. *)
Definition orZero (x : Q) : Q := if truthy x then x else 0.

Definition fieldOrZero (x : option Q) : Q :=
  match x with Some v => orZero v | None => 0 end.

(** [data.intervals || []]: an array, even an empty one, is truthy. *)
Definition fieldOrEmpty (x : option (list Interval)) : list Interval :=
  match x with Some l => l | None => [] end.

(** The guard [videoRef.current && data.lastPosition && !hasResumed.current]
    of [loadProgress], with the position it lets through. *)
Definition resumePosition (s : State) (data : ProgressData.t) : option Q :=
  match videoRef s, ProgressData.lastPosition data with
  | Some _, Some p => if truthy p && negb (hasResumed s) then Some p else None
  | _, _ => None
  end.

(** [loadProgress()].  A missing item, or an exception inside the [try], leaves
    the state as it is. *)
Definition loadProgress (s : State) : State :=
  match sessionStorage s with
  | Item data =>
      let s1 := setWatchedIntervals (fieldOrEmpty (ProgressData.intervals data)) s in
      let s2 := setSessionWatchedTime (fieldOrZero (ProgressData.sessionTime data)) s1 in
      match resumePosition s2 data, videoRef s2 with
      | Some p, Some video =>
          setHasResumed true
            (setLastPosition p (setVideoRef (Some (seekTo p video)) s2))
      | _, _ => s2
      end
  | _ => s
  end.

(** The object [progressData] that [saveProgressToStorage] builds; [now] is
    [Date.now()]. *)
Definition progressData (now : Z) (s : State) : ProgressData.t :=
  ProgressData.mk
    (Some (watchedIntervals s))
    (Some (match videoRef s with
           | Some video => orZero (currentTime video)
           | None => 0
           end))
    (Some (totalDuration s))
    (Some (sessionWatchedTime s))
    (Some now)
    (Some (currentProgress s)).

(** [saveProgressToStorage()], when [setItem] succeeds. *)
Definition saveProgressToStorage (now : Z) (s : State) : State :=
  setSessionStorage (Item (progressData now s)) s.

(** ** Display, metadata and reset *)

(** The effect "update display values", which runs after a render in which
    [watchedIntervals] or [totalDuration] changed. *)
Definition updateDisplay (s : State) : State :=
  let uniqueTime := calculateUniqueTime (watchedIntervals s) in
  let s := setUniqueWatchedTime uniqueTime s in
  if gtb (totalDuration s) 0
  then setCurrentProgress (uniqueTime / totalDuration s * 100) s
  else s.

(** [handleLoadedMetadata()]; the [loadProgress] it schedules runs later, as
    a call of its own. *)
Definition handleLoadedMetadata (s : State) : State :=
  match videoRef s with
  | Some video => setTotalDuration (duration video) s
  | None => s
  end.

(** [resetProgress()], when the user confirms. *)
Definition resetProgress (s : State) : State :=
  let s := setWatchedIntervals [] s in
  let s := setCurrentProgress 0 s in
  let s := setUniqueWatchedTime 0 s in
  let s := setSessionWatchedTime 0 s in
  let s := setCurrentWatchStart None s in
  let s := setLastPosition 0 s in
  let s := setHasResumed false s in
  let s :=
    match videoRef s with
    | Some video => setVideoRef (Some (seekTo 0 video)) s
    | None => s
    end in
  setSessionStorage NoItem s.

(** ** What the page shows *)

(** [Math.floor], [Math.round] (half goes up) and [Math.trunc] on finite
    numbers, and [x % y]: the remainder that has the sign of [x]. *)
Definition Math_floor (x : Q) : Z := Qfloor x.

Definition Math_round (x : Q) : Z := Qfloor (x + (1#2)).

Definition Math_trunc (x : Q) : Z :=
  if Qle_bool 0 x then Qfloor x else Qceiling x.

Definition remainder (x y : Q) : Q := x - y * inject_Z (Math_trunc (x / y)).

(** [n.toString()] of a whole number: its decimal digits, after a minus sign
    when it is negative. *)
Definition toString (n : Z) : String.string :=
  DecimalString.NilZero.string_of_int (Z.to_int n).

(** [s.padStart(targetLength, padString)] for a [padString] of one
    character. *)
Definition padStart (targetLength : nat) (padString s : String.string)
  : String.string :=
  String.append
    (String.concat String.EmptyString
       (repeat padString (targetLength - String.length s)))
    s.

(** The two numbers of [formatTime(seconds)]: [mins] and [secs]. *)
Definition formatMinutes (seconds : Q) : Z := Math_floor (seconds / 60).

Definition formatSeconds (seconds : Q) : Z :=
  Math_round (remainder seconds 60).

(** [formatTime(seconds)]: the template [`${mins}:${secs, two digits}`]. *)
Definition formatTime (seconds : Q) : String.string :=
  String.append (toString (formatMinutes seconds))
    (String.append ":"%string
       (padStart 2 "0"%string (toString (formatSeconds seconds)))).

(** One bar of the "Watched Segments" timeline: the [left] and [width] of its
    style, in percent. *)
Record Bar : Type := mkBar { barLeft : Q; barWidth : Q }.

(** The bars that the timeline renders: none while [totalDuration > 0] is
    false, else one per watched interval. *)
Definition segmentBars (s : State) : list Bar :=
  if gtb (totalDuration s) 0
  then
    map (fun interval =>
           let startPercent := start interval / totalDuration s * 100 in
           let width :=
             (end_ interval - start interval) / totalDuration s * 100 in
           mkBar startPercent (Math_max width (1#2)))
        (watchedIntervals s)
  else [].

(** ** Sessions *)

(** What can happen to a mounted component: the player events that the
    handlers are bound to, the calls of [loadProgress] (on mount and after
    metadata), of [saveProgressToStorage] (timer, effect, unload, button) and
    of [resetProgress], the player moving by itself, and the page being
    loaded again in the same tab. *)
Inductive Event : Type :=
| Play
| Pause
| Seeked
| TimeUpdate
| Ended
| LoadedMetadata
| LoadProgress
| SaveProgress (now : Z)
| ResetProgress
| PlayerAt (t : Q) (isPaused : bool)
| Remount.

Section Session.

(** The duration of the one video that the page plays. *)
Variable d : Q.

(** The video element before anything was played. *)
Definition freshVideo : Video := mkVideo 0 true d.

(** The handler bound to an event.  [PlayerAt] is the player changing its
    position and its paused flag by itself; [Remount] is a new component,
    with a new video element, over the item that the storage holds. *)
Definition handle (e : Event) (s : State) : State :=
  match e with
  | Play => handlePlay s
  | Pause => handlePause s
  | Seeked => handleSeeked s
  | TimeUpdate => handleTimeUpdate s
  | Ended => handleEnded s
  | LoadedMetadata => handleLoadedMetadata s
  | LoadProgress => loadProgress s
  | SaveProgress now => saveProgressToStorage now s
  | ResetProgress => resetProgress s
  | PlayerAt t p =>
      match videoRef s with
      | Some video => setVideoRef (Some (mkVideo t p (duration video))) s
      | None => s
      end
  | Remount => mount freshVideo (sessionStorage s)
  end.

(** A handler, then the display effect.  The effect is a function of
    [watchedIntervals] and [totalDuration]: where React skips it because neither
    changed, running it gives back what it gave last. *)
Definition dispatch (e : Event) (s : State) : State :=
  updateDisplay (handle e s).

(** The player stays inside the video. *)
Definition allowed (e : Event) : Prop :=
  match e with
  | PlayerAt t _ => 0 <= t /\ t <= d
  | _ => True
  end.

(** The states of a tab that first opens the page with nothing stored.
    Events come in any order, in more orders than a browser produces them:
    what holds of every state here holds of every state of the page. *)
Inductive reachable : State -> Prop :=
| reachable_mount : reachable (mount freshVideo NoItem)
| reachable_step (s : State) (e : Event) :
    reachable s -> allowed e -> reachable (dispatch e s).

End Session.

(** * The properties *)

(** ** The coverage-set invariant *)

(** Adjacent intervals: ascending starts, and the next one starts after the
    previous one ends, more than the tolerance of one second later. *)
Definition adjacentOk (a b : Interval) : Prop :=
  start a <= start b /\ end_ a < start b /\ 1 < start b - end_ a.

Definition CoverageSet (l : list Interval) : Prop := Sorted adjacentOk l.

(** An interval with [start <= end]. *)
Definition wellFormed (i : Interval) : Prop := start i <= end_ i.

(** Ascending starts alone, and the gap alone. *)
Definition startLe (a b : Interval) : Prop := start a <= start b.

(** The next interval starts more than the tolerance after this one ends:
    the test of the loop fails. *)
Definition gapped (a b : Interval) : Prop := end_ a + 1 < start b.

(** [J] spans [I]. *)
Definition spans (J I : Interval) : Prop :=
  start J <= start I /\ end_ I <= end_ J.

(** [I] is apart from [J] by more than the tolerance, on one side or the
    other. *)
Definition apart (I J : Interval) : Prop := gapped J I \/ gapped I J.

(** [interval.end - interval.start]. *)
Definition lengthOf (i : Interval) : Q := end_ i - start i.

(** ** The loop and the sort, seen from inside *)

(** The loop seen from its last element: [sweepFrom cur rest] is what the loop
    leaves from [cur] on, when [cur] is the last element of [merged] and
    [rest] is still to be read. *)
Fixpoint sweepFrom (cur : Interval) (rest : list Interval) : list Interval :=
  match rest with
  | [] => [cur]
  | k :: r =>
      if Qle_bool (start k) (end_ cur + 1)
      then sweepFrom (setEnd cur (Math_max (end_ cur) (end_ k))) r
      else cur :: sweepFrom k r
  end.

(** Where the stable sort puts an interval [I] that was appended to a list
    already sorted by start: after every element that starts no later. *)
Fixpoint place (I : Interval) (l : list Interval) : list Interval :=
  match l with
  | [] => [I]
  | x :: r => if Qle_bool (byStart x I) 0 then x :: place I r else I :: x :: r
  end.

(** ** Stored payloads *)

(** The state with the item ["videoProgress"] holding [data]. *)
Definition withItem (data : ProgressData.t) (s : State) : State :=
  setSessionStorage (Item data) s.

(** A payload that carries only an intervals array and a last position. *)
Definition payload (l : list Interval) (lastPosition : option Q)
  : ProgressData.t :=
  ProgressData.mk (Some l) lastPosition None None None None.

(** ** What a session keeps *)

(** An interval inside the video, with [start <= end]. *)
Definition inside (d : Q) (i : Interval) : Prop :=
  0 <= start i /\ start i <= end_ i /\ end_ i <= d.

Definition covers (d : Q) (l : list Interval) : Prop :=
  CoverageSet l /\ Forall (inside d) l.

Definition storedOk (d : Q) (item : StorageItem) : Prop :=
  match item with
  | Item data =>
      covers d (fieldOrEmpty (ProgressData.intervals data)) /\
      (forall p, ProgressData.lastPosition data = Some p -> 0 <= p /\ p <= d)
  | _ => True
  end.

Definition videoOk (d : Q) (v : option Video) : Prop :=
  forall video, v = Some video ->
    0 <= currentTime video /\ currentTime video <= d /\ duration video = d.

Definition startOk (d : Q) (c : option Q) : Prop :=
  forall t, c = Some t -> 0 <= t /\ t <= d.

(** The part of the invariant that the handlers keep by themselves. *)
Record Engine (d : Q) (s : State) : Prop := mkEngine {
  engine_intervals : covers d (watchedIntervals s);
  engine_storage : storedOk d (sessionStorage s);
  engine_video : videoOk d (videoRef s);
  engine_start : startOk d (currentWatchStart s);
  engine_total : totalDuration s = 0 \/ totalDuration s = d;
  engine_idle : totalDuration s = 0 -> currentProgress s == 0
}.

(** The part that the display effect gives back after every handler. *)
Definition Settled (s : State) : Prop :=
  0 < totalDuration s ->
  currentProgress s
  == calculateUniqueTime (watchedIntervals s) / totalDuration s * 100.

(** ** The player and the events *)

(** The player moving by itself: the video element at a new position, with a
    new paused flag. *)
Definition playerAt (t : Q) (isPaused : bool) (s : State) : State :=
  match videoRef s with
  | Some video => setVideoRef (Some (mkVideo t isPaused (duration video))) s
  | None => s
  end.

(** The events that neither load, reset nor mount again. *)
Definition quiet (e : Event) : Prop :=
  match e with
  | LoadProgress | ResetProgress | Remount => False
  | _ => True
  end.

(** The session time, in the state and in the stored item, is not negative. *)
Definition Counters (s : State) : Prop :=
  0 <= sessionWatchedTime s /\
  match sessionStorage s with
  | Item data => 0 <= fieldOrZero (ProgressData.sessionTime data)
  | _ => True
  end.

(** ** The timeline *)

(** The widths of the bars, added up, and the bar of one interval. *)
Fixpoint totalWidth (bars : list Bar) : Q :=
  match bars with
  | [] => 0
  | b :: r => barWidth b + totalWidth r
  end.

Definition barOf (total : Q) (interval : Interval) : Bar :=
  mkBar (start interval / total * 100)
        (Math_max ((end_ interval - start interval) / total * 100) (1#2)).

(** ** What a save records *)

(** The position of the player, when there is one. *)
Definition position (s : State) : option Q :=
  match videoRef s with
  | Some video => Some (currentTime video)
  | None => None
  end.

(** A stored record holds the five values of a state that
    [saveProgressToStorage] writes beside the timestamp. *)
Definition records (data : ProgressData.t) (s : State) : Prop :=
  ProgressData.intervals data = Some (watchedIntervals s) /\
  (exists p, ProgressData.lastPosition data = Some p /\
             p == match position s with Some t => t | None => 0 end) /\
  ProgressData.totalDuration data = Some (totalDuration s) /\
  ProgressData.sessionTime data = Some (sessionWatchedTime s) /\
  ProgressData.progressPercentage data = Some (currentProgress s).

(** Two states with the same five values, numbers compared as numbers. *)
Definition sameProgress (a b : State) : Prop :=
  watchedIntervals a = watchedIntervals b /\
  position a = position b /\
  totalDuration a = totalDuration b /\
  sessionWatchedTime a == sessionWatchedTime b /\
  currentProgress a == currentProgress b.

(** A state saved, the page loaded again, and the record loaded into the
    new component. *)
Definition reloaded (d : Q) (now : Z) (s : State) : State :=
  dispatch d LoadProgress
    (dispatch d Remount (dispatch d (SaveProgress now) s)).

(** Two players at the same position, compared as numbers. *)
Definition samePosition (a b : State) : Prop :=
  match position a, position b with
  | Some t, Some t' => t == t'
  | None, None => True
  | _, _ => False
  end.

(** ** Scenarios *)

(** Scenario D: [[0,10)] covered, 10 seconds of session time, then play at 20
    and pause at 20.3. *)
Definition scenarioD : State :=
  mkState [mkInterval 0 10] 10 10 100 10 true (Some 20) 20 false
    (Some (mkVideo (203#10) true 100)) NoItem.

(** A viewer plays from 0, the last time update was at 5, and the player
    jumps to 100 while playing. *)
Definition jumpForward : State :=
  mkState [] 0 0 120 0 true (Some 0) 5 false
    (Some (mkVideo 100 false 120)) NoItem.

(** Scenario E: a video of 100 seconds, played from 0 and paused at 37. *)
Definition scenarioE : State :=
  dispatch 100 Pause
    (dispatch 100 (PlayerAt 37 false)
       (dispatch 100 Play
          (dispatch 100 LoadedMetadata (mount (freshVideo 100) NoItem)))).

(** * Proofs *)

Ltac fields :=
  cbn [watchedIntervals currentProgress uniqueWatchedTime totalDuration
       sessionWatchedTime isPlaying currentWatchStart lastPosition hasResumed
       videoRef sessionStorage
       setWatchedIntervals setCurrentProgress setUniqueWatchedTime
       setTotalDuration setSessionWatchedTime setIsPlaying
       setCurrentWatchStart setLastPosition setHasResumed setVideoRef
       setSessionStorage mount seekTo freshVideo
       currentTime paused duration start end_] in *.

(** ** The sweep, by its current interval *)

Lemma mergeStep_snoc (P : list Interval) (cur k : Interval) :
  mergeStep (P ++ [cur]) k =
  if Qle_bool (start k) (end_ cur + 1)
  then P ++ [setEnd cur (Math_max (end_ cur) (end_ k))]
  else P ++ [cur] ++ [k].
Proof.
  unfold mergeStep. rewrite last_last, removelast_last.
  destruct (Qle_bool _ _); [reflexivity|]. now rewrite <- app_assoc.
Qed.

Lemma fold_mergeStep (rest : list Interval) :
  forall P cur, fold_left mergeStep rest (P ++ [cur]) = P ++ sweepFrom cur rest.
Proof.
  induction rest as [|k r IH]; intros P cur; simpl; [reflexivity|].
  rewrite mergeStep_snoc.
  destruct (Qle_bool (start k) (end_ cur + 1)).
  - apply IH.
  - rewrite app_assoc, IH, <- app_assoc. reflexivity.
Qed.

Lemma mergeIntervals_sweep (l : list Interval) first rest :
  (2 <= length l)%nat -> sort byStart l = first :: rest ->
  mergeIntervals l = sweepFrom first rest.
Proof.
  intros Hlen Hs. unfold mergeIntervals.
  destruct (Nat.leb_spec (length l) 1) as [H|H]; [lia|].
  rewrite Hs. apply (fold_mergeStep rest [] first).
Qed.

(** ** Comparisons *)

Lemma gtb_true (x y : Q) : gtb x y = true <-> y < x.
Proof.
  unfold gtb. rewrite negb_true_iff.
  destruct (Qle_bool x y) eqn:E.
  - apply Qle_bool_iff in E. split; [discriminate | intros H; lra].
  - split; [intros _ | reflexivity].
    destruct (Qlt_le_dec y x) as [H|H]; [exact H|].
    apply Qle_bool_iff in H. congruence.
Qed.

Lemma gtb_false (x y : Q) : gtb x y = false <-> x <= y.
Proof.
  unfold gtb. rewrite negb_false_iff. apply Qle_bool_iff.
Qed.

Lemma geb_true (x y : Q) : geb x y = true <-> y <= x.
Proof. unfold geb. apply Qle_bool_iff. Qed.

Lemma Qle_bool_false (x y : Q) : Qle_bool x y = false <-> y < x.
Proof.
  rewrite <- (gtb_true x y). unfold gtb. now rewrite negb_true_iff.
Qed.

Lemma Math_max_ge_l (a b : Q) : a <= Math_max a b.
Proof.
  unfold Math_max. destruct (Qle_bool b a) eqn:E; [lra|].
  apply Qle_bool_false in E. lra.
Qed.

Lemma Math_max_ge_r (a b : Q) : b <= Math_max a b.
Proof.
  unfold Math_max. destruct (Qle_bool b a) eqn:E; [|lra].
  apply Qle_bool_iff in E. exact E.
Qed.

Lemma Math_max_absorb (a b : Q) : b <= a -> Math_max a b = a.
Proof.
  intros H. unfold Math_max. apply Qle_bool_iff in H. now rewrite H.
Qed.

Lemma Math_max_cases (a b : Q) :
  (b <= a /\ Math_max a b = a) \/ (a < b /\ Math_max a b = b).
Proof.
  unfold Math_max. destruct (Qle_bool b a) eqn:E.
  - left. apply Qle_bool_iff in E. auto.
  - right. apply Qle_bool_false in E. auto.
Qed.

(** ** Sorting *)

Lemma insert_cases (x y : Interval) (r : list Interval) :
  (start x <= start y /\ insert byStart x (y :: r) = x :: y :: r) \/
  (start y < start x /\ insert byStart x (y :: r) = y :: insert byStart x r).
Proof.
  simpl. unfold byStart. destruct (Qle_bool (start x - start y) 0) eqn:E.
  - left. apply Qle_bool_iff in E. split; [lra | reflexivity].
  - right. apply Qle_bool_false in E. split; [lra | reflexivity].
Qed.

Lemma insert_hd (x : Interval) (l : list Interval) (a : Interval) :
  HdRel startLe a l -> startLe a x -> HdRel startLe a (insert byStart x l).
Proof.
  intros Hl Hx. destruct l as [|y r]; [constructor; exact Hx|].
  destruct (insert_cases x y r) as [[_ ->]|[_ ->]]; constructor;
    [exact Hx | now inversion Hl].
Qed.

Lemma insert_sorted (x : Interval) (l : list Interval) :
  Sorted startLe l -> Sorted startLe (insert byStart x l).
Proof.
  induction 1 as [|y r Hr IH Hhd]; [repeat constructor|].
  destruct (insert_cases x y r) as [[Hle ->]|[Hlt ->]].
  - constructor; [constructor; assumption | constructor; exact Hle].
  - constructor; [exact IH|]. apply insert_hd; [exact Hhd|].
    unfold startLe. lra.
Qed.

Lemma sort_sorted (l : list Interval) : Sorted startLe (sort byStart l).
Proof.
  induction l as [|x l IH]; simpl; [constructor | now apply insert_sorted].
Qed.

Lemma insert_length (x : Interval) (l : list Interval) :
  length (insert byStart x l) = S (length l).
Proof.
  induction l as [|y r IH]; [reflexivity|].
  destruct (insert_cases x y r) as [[_ ->]|[_ ->]]; simpl; congruence.
Qed.

Lemma sort_length (l : list Interval) : length (sort byStart l) = length l.
Proof.
  induction l as [|x l IH]; simpl; [reflexivity|].
  now rewrite insert_length, IH.
Qed.

(** ** The sweep keeps the invariant *)

Lemma sweepFrom_head (rest : list Interval) :
  forall cur, exists h t, sweepFrom cur rest = h :: t /\ start h = start cur.
Proof.
  induction rest as [|k r IH]; intros cur; simpl.
  - now exists cur, [].
  - destruct (Qle_bool (start k) (end_ cur + 1)).
    + destruct (IH (setEnd cur (Math_max (end_ cur) (end_ k))))
        as (h & t & -> & Hh). now exists h, t.
    + now exists cur, (sweepFrom k r).
Qed.

Lemma sorted_setEnd (cur k : Interval) (r : list Interval) (e : Q) :
  Sorted startLe (cur :: k :: r) -> Sorted startLe (setEnd cur e :: r).
Proof.
  intros H. inversion H as [|? ? Hkr Hhd]; subst.
  inversion Hhd as [|? ? Hck]; subst.
  inversion Hkr as [|? ? Hr Hk]; subst.
  constructor; [exact Hr|].
  destruct r as [|k' r']; constructor.
  inversion Hk; subst. unfold startLe in *. simpl. lra.
Qed.

Lemma sweepFrom_CoverageSet (rest : list Interval) :
  forall cur, Sorted startLe (cur :: rest) -> CoverageSet (sweepFrom cur rest).
Proof.
  induction rest as [|k r IH]; intros cur Hs; simpl.
  - repeat constructor.
  - destruct (Qle_bool (start k) (end_ cur + 1)) eqn:E.
    + apply IH. now apply sorted_setEnd with (k := k).
    + apply Qle_bool_false in E.
      inversion Hs as [|? ? Hkr Hhd]; subst. inversion Hhd; subst.
      constructor; [now apply IH|].
      destruct (sweepFrom_head r k) as (h & t & -> & Hh).
      constructor. unfold adjacentOk, startLe in *. rewrite Hh. lra.
Qed.

Lemma mergeIntervals_CoverageSet (l : list Interval) :
  CoverageSet (mergeIntervals l).
Proof.
  destruct (le_lt_dec (length l) 1) as [Hlen|Hlen].
  - unfold mergeIntervals. apply Nat.leb_le in Hlen. rewrite Hlen.
    destruct l as [|a [|b l]]; [constructor | repeat constructor | discriminate].
  - destruct (sort byStart l) as [|first rest] eqn:Hs.
    + pose proof (sort_length l) as Hl. rewrite Hs in Hl. simpl in Hl. lia.
    + rewrite (mergeIntervals_sweep l first rest Hlen Hs).
      apply sweepFrom_CoverageSet. rewrite <- Hs. apply sort_sorted.
Qed.

Lemma Sorted_adjacent (R : Interval -> Interval -> Prop) (l : list Interval) :
  Sorted R l ->
  forall i a b, nth_error l i = Some a -> nth_error l (S i) = Some b -> R a b.
Proof.
  induction 1 as [|x l Hl IH Hhd]; intros i a b Ha Hb.
  - destruct i; discriminate.
  - destruct i as [|i]; simpl in Ha, Hb.
    + injection Ha as <-. destruct l as [|y l']; [discriminate|].
      injection Hb as <-. now inversion Hhd.
    + now apply (IH i).
Qed.

(** C1.  Whatever list of intervals it is given, in whatever order,
    [mergeIntervals] returns a list that satisfies the coverage-set invariant:
    for every adjacent pair of the output the starts ascend, the earlier
    interval ends before the later one starts, and the gap between them is
    more than the tolerance of 1. *)
Theorem C1_mergeIntervals_invariant (intervals : list Interval) :
  CoverageSet (mergeIntervals intervals) /\
  forall i a b,
    nth_error (mergeIntervals intervals) i = Some a ->
    nth_error (mergeIntervals intervals) (S i) = Some b ->
    start a <= start b /\ end_ a < start b /\ 1 < start b - end_ a.
Proof.
  split; [apply mergeIntervals_CoverageSet|].
  intros i a b Ha Hb.
  exact (Sorted_adjacent adjacentOk _ (mergeIntervals_CoverageSet intervals) i a b Ha Hb).
Qed.

(** ** Appending one interval to a sorted list and sorting *)

Lemma place_cases (I x : Interval) (r : list Interval) :
  (start x <= start I /\ place I (x :: r) = x :: place I r) \/
  (start I < start x /\ place I (x :: r) = I :: x :: r).
Proof.
  simpl. unfold byStart. destruct (Qle_bool (start x - start I) 0) eqn:E.
  - left. apply Qle_bool_iff in E. split; [lra | reflexivity].
  - right. apply Qle_bool_false in E. split; [lra | reflexivity].
Qed.

Lemma place_hd (I a : Interval) (l : list Interval) :
  HdRel startLe a l -> startLe a I -> HdRel startLe a (place I l).
Proof.
  intros Hl HI. destruct l as [|y r]; [constructor; exact HI|].
  destruct (place_cases I y r) as [[_ ->]|[_ ->]]; constructor;
    [now inversion Hl | exact HI].
Qed.

Lemma insert_front (x : Interval) (l : list Interval) :
  HdRel startLe x l -> insert byStart x l = x :: l.
Proof.
  intros H. destruct l as [|y r]; [reflexivity|].
  inversion H as [|? ? Hxy]; subst. unfold startLe in Hxy.
  destruct (insert_cases x y r) as [[_ ->]|[Hlt _]]; [reflexivity | lra].
Qed.

Lemma sort_snoc (I : Interval) (l : list Interval) :
  Sorted startLe l -> sort byStart (l ++ [I]) = place I l.
Proof.
  induction 1 as [|x l Hl IH Hhd]; [reflexivity|].
  change (sort byStart ((x :: l) ++ [I]))
    with (insert byStart x (sort byStart (l ++ [I]))).
  rewrite IH.
  destruct (place_cases I x l) as [[Hle ->]|[Hlt ->]].
  - apply insert_front. now apply place_hd.
  - assert (Hp : place I l = I :: l).
    { destruct l as [|y r]; [reflexivity|].
      inversion Hhd as [|? ? Hxy]; subst. unfold startLe in Hxy.
      destruct (place_cases I y r) as [[Hle _]|[_ ->]]; [lra | reflexivity]. }
    rewrite Hp.
    destruct (insert_cases x I l) as [[Hle _]|[_ ->]]; [lra|].
    now rewrite insert_front.
Qed.

Lemma insert_In (x y : Interval) (l : list Interval) :
  In y (insert byStart x l) <-> y = x \/ In y l.
Proof.
  induction l as [|z r IH]; [simpl; intuition congruence|].
  destruct (insert_cases x z r) as [[_ ->]|[_ ->]]; simpl in *;
    intuition congruence.
Qed.

Lemma sort_In (y : Interval) (l : list Interval) :
  In y (sort byStart l) <-> In y l.
Proof.
  induction l as [|x l IH]; simpl; [tauto|].
  rewrite insert_In, IH. intuition congruence.
Qed.

(** ** What the sweep leaves alone, and what it absorbs *)

Lemma CoverageSet_startLe (l : list Interval) :
  CoverageSet l -> Sorted startLe l.
Proof.
  induction 1 as [|x l Hl IH Hhd]; constructor; [exact IH|].
  destruct Hhd as [|y r Hxy]; constructor. apply Hxy.
Qed.

Lemma CoverageSet_gapped (l : list Interval) :
  CoverageSet l -> Sorted gapped l.
Proof.
  induction 1 as [|x l Hl IH Hhd]; constructor; [exact IH|].
  destruct Hhd as [|y r Hxy]; constructor.
  unfold gapped. destruct Hxy as (_ & _ & H). lra.
Qed.

Lemma CoverageSet_tail (x : Interval) (l : list Interval) :
  CoverageSet (x :: l) -> CoverageSet l.
Proof. intros H. now inversion H. Qed.

Lemma sweepFrom_gapped (rest : list Interval) :
  forall cur, Sorted gapped (cur :: rest) -> sweepFrom cur rest = cur :: rest.
Proof.
  induction rest as [|k r IH]; intros cur H; simpl; [reflexivity|].
  inversion H as [|? ? Hkr Hhd]; subst. inversion Hhd as [|? ? Hg]; subst.
  unfold gapped in Hg.
  destruct (Qle_bool (start k) (end_ cur + 1)) eqn:E.
  - apply Qle_bool_iff in E. lra.
  - now rewrite IH.
Qed.

Lemma setEnd_same (i : Interval) : setEnd i (end_ i) = i.
Proof. now destruct i. Qed.

Lemma sweepFrom_head_spans (rest : list Interval) :
  forall cur, exists h t,
    sweepFrom cur rest = h :: t /\ start h = start cur /\ end_ cur <= end_ h.
Proof.
  induction rest as [|k r IH]; intros cur; simpl.
  - exists cur, []. repeat split; lra.
  - destruct (Qle_bool (start k) (end_ cur + 1)).
    + destruct (IH (setEnd cur (Math_max (end_ cur) (end_ k))))
        as (h & t & -> & Hs & He).
      exists h, t. simpl in *. pose proof (Math_max_ge_l (end_ cur) (end_ k)).
      repeat split; [exact Hs | lra].
    + exists cur, (sweepFrom k r). repeat split; lra.
Qed.

Lemma sweepFrom_spans (rest : list Interval) :
  forall cur x, Sorted startLe (cur :: rest) -> In x (cur :: rest) ->
  exists J, In J (sweepFrom cur rest) /\ spans J x.
Proof.
  induction rest as [|k r IH]; intros cur x Hs Hx.
  - destruct Hx as [<-|[]]. exists cur. simpl. unfold spans. split; [auto|lra].
  - assert (Hck : start cur <= start k).
    { inversion Hs as [|? ? _ Hhd]; subst. now inversion Hhd. }
    simpl. destruct (Qle_bool (start k) (end_ cur + 1)) eqn:E.
    + set (cur' := setEnd cur (Math_max (end_ cur) (end_ k))).
      assert (Hs' : Sorted startLe (cur' :: r))
        by now apply sorted_setEnd with (k := k).
      destruct (sweepFrom_head_spans r cur') as (h & t & Heq & Hhs & Hhe).
      pose proof (Math_max_ge_l (end_ cur) (end_ k)) as Hl.
      pose proof (Math_max_ge_r (end_ cur) (end_ k)) as Hr.
      unfold cur' in Hhs, Hhe. simpl in Hhs, Hhe.
      destruct Hx as [<-|[<-|Hx]].
      * exists h. rewrite Heq. split; [now left|]. unfold spans.
        rewrite Hhs. lra.
      * exists h. rewrite Heq. split; [now left|]. unfold spans.
        rewrite Hhs. lra.
      * apply IH; [exact Hs' | now right].
    + destruct Hx as [<-|Hx].
      * exists cur. split; [now left|]. unfold spans. lra.
      * destruct (IH k x) as (J & HJ & HJx); [now inversion Hs | exact Hx |].
        exists J. split; [now right | exact HJx].
Qed.

Lemma merge_spans (S : list Interval) (I : Interval) :
  exists J, In J (merge S I) /\ spans J I.
Proof.
  unfold merge. destruct S as [|a S'].
  - exists I. simpl. unfold spans. split; [auto|lra].
  - assert (Hlen : (2 <= length ((a :: S') ++ [I]))%nat).
    { rewrite length_app. simpl. lia. }
    destruct (sort byStart ((a :: S') ++ [I])) as [|first rest] eqn:Hs.
    + pose proof (sort_length ((a :: S') ++ [I])) as Hl.
      rewrite Hs in Hl. simpl in Hl. lia.
    + rewrite (mergeIntervals_sweep _ first rest Hlen Hs).
      apply sweepFrom_spans.
      * rewrite <- Hs. apply sort_sorted.
      * rewrite <- Hs. apply sort_In, in_or_app. right. now left.
Qed.

Lemma place_absorbed (I : Interval) (rest : list Interval) :
  wellFormed I ->
  forall cur, CoverageSet (cur :: rest) ->
  (exists J, In J (cur :: rest) /\ spans J I) ->
  exists X, place I (cur :: rest) = cur :: X /\ sweepFrom cur X = cur :: rest.
Proof.
  intros HI. unfold wellFormed in HI.
  induction rest as [|k r IH]; intros cur Hc (J & HJ & HJs0 & HJe0).
  - destruct HJ as [<-|[]].
    destruct (place_cases I cur []) as [[_ ->]|[Hlt _]]; [|lra].
    exists [I]. split; [reflexivity|]. simpl.
    assert (E : Qle_bool (start I) (end_ cur + 1) = true)
      by (apply Qle_bool_iff; lra).
    rewrite E, Math_max_absorb, setEnd_same; [reflexivity | exact HJe0].
  - inversion Hc as [|? ? Hkr Hhd]; subst.
    inversion Hhd as [|? ? (Hs & He & Hg)]; subst.
    destruct HJ as [<-|HJ].
    + destruct (place_cases I cur (k :: r)) as [[_ ->]|[Hlt _]]; [|lra].
      destruct (place_cases I k r) as [[Hle _]|[_ ->]]; [lra|].
      exists (I :: k :: r). split; [reflexivity|].
      change (sweepFrom cur (I :: k :: r))
        with (if Qle_bool (start I) (end_ cur + 1)
              then sweepFrom (setEnd cur (Math_max (end_ cur) (end_ I))) (k :: r)
              else cur :: sweepFrom I (k :: r)).
      assert (E : Qle_bool (start I) (end_ cur + 1) = true)
        by (apply Qle_bool_iff; lra).
      rewrite E, Math_max_absorb, setEnd_same by exact HJe0.
      apply sweepFrom_gapped, CoverageSet_gapped, Hc.
    + destruct (IH k Hkr) as (X & HX & HsX); [now exists J|].
      assert (HkI : start k <= start I).
      { destruct (place_cases I k r) as [[Hle _]|[_ Heq]]; [exact Hle|].
        rewrite Heq in HX. injection HX as Hik _. subst k. lra. }
      destruct (place_cases I cur (k :: r)) as [[_ ->]|[Hlt _]]; [|lra].
      exists (place I (k :: r)). split; [reflexivity|].
      rewrite HX. simpl.
      assert (E : Qle_bool (start k) (end_ cur + 1) = false)
        by (apply Qle_bool_false; lra).
      now rewrite E, HsX.
Qed.

Lemma merge_absorbed (M : list Interval) (I : Interval) :
  wellFormed I -> CoverageSet M ->
  (exists J, In J M /\ spans J I) -> merge M I = M.
Proof.
  intros HI HM HJ. destruct M as [|cur rest].
  - destruct HJ as (J & [] & _).
  - destruct (place_absorbed I rest HI cur HM HJ) as (X & HX & HsX).
    unfold merge. transitivity (sweepFrom cur X); [|exact HsX].
    apply mergeIntervals_sweep.
    + rewrite length_app. simpl. lia.
    + rewrite sort_snoc by now apply CoverageSet_startLe. exact HX.
Qed.

(** C2.  Merging is idempotent: for every list [S] (a coverage set or not)
    and every interval [I] with [start <= end], merging [I] a second time
    changes nothing; and merging into a coverage set [S] an interval that an
    interval of [S] spans returns [S] itself. *)
Theorem C2_merge_idempotent (S : list Interval) (I : Interval) :
  wellFormed I ->
  merge (merge S I) I = merge S I /\
  (CoverageSet S ->
   forall J, In J S -> start J <= start I -> end_ I <= end_ J ->
   merge S I = S).
Proof.
  intros HI. split.
  - apply merge_absorbed;
      [exact HI | apply mergeIntervals_CoverageSet | apply merge_spans].
  - intros HS J HJ Hs He. apply merge_absorbed; [exact HI | exact HS |].
    exists J. unfold spans. auto.
Qed.

(** C2 at the intervals of scenario C: [[0,10)] then [[5,8)]. *)
Lemma C2_merge_idempotent_witness :
  merge (merge [mkInterval 0 10] (mkInterval 5 8)) (mkInterval 5 8)
    = merge [mkInterval 0 10] (mkInterval 5 8) /\
  merge [mkInterval 0 10] (mkInterval 5 8) = [mkInterval 0 10].
Proof.
  assert (HI : wellFormed (mkInterval 5 8)) by (unfold wellFormed; simpl; lra).
  destruct (C2_merge_idempotent [mkInterval 0 10] (mkInterval 5 8) HI)
    as [H1 H2].
  split; [exact H1|].
  apply (H2 (Sorted_cons (Sorted_nil _) (HdRel_nil _ _)) (mkInterval 0 10));
    [now left | simpl; lra | simpl; lra].
Defined.

(** ** The unique time of a list *)

Lemma uniqueTime_acc (l : list Interval) :
  forall acc,
    fold_left (fun total i => total + (end_ i - start i)) l acc
    == acc + calculateUniqueTime l.
Proof.
  unfold calculateUniqueTime.
  induction l as [|a l IH]; intros acc; simpl; [lra|].
  rewrite (IH (acc + (end_ a - start a))), (IH (0 + (end_ a - start a))). lra.
Qed.

Lemma uniqueTime_cons (a : Interval) (l : list Interval) :
  calculateUniqueTime (a :: l) == lengthOf a + calculateUniqueTime l.
Proof.
  unfold calculateUniqueTime at 1. simpl. rewrite uniqueTime_acc.
  unfold lengthOf. lra.
Qed.

Lemma uniqueTime_nil : calculateUniqueTime [] == 0.
Proof. reflexivity. Qed.

Lemma uniqueTime_place (I : Interval) (l : list Interval) :
  calculateUniqueTime (place I l) == calculateUniqueTime l + lengthOf I.
Proof.
  induction l as [|x r IH].
  - simpl place. rewrite uniqueTime_cons, uniqueTime_nil. lra.
  - destruct (place_cases I x r) as [[_ ->]|[_ ->]];
      rewrite !uniqueTime_cons; [rewrite IH|]; lra.
Qed.

(** ** The coverage bound *)

Lemma sorted_inv (R : Interval -> Interval -> Prop) (a b : Interval)
  (l : list Interval) :
  Sorted R (a :: b :: l) -> R a b /\ Sorted R (b :: l).
Proof.
  intros H. inversion H as [|? ? Hbl Hhd]; subst. inversion Hhd; subst. auto.
Qed.

(** Once the current interval is in place, the intervals of a gapped list
    that follow add at most their own lengths and one tolerance. *)
Lemma sweepFrom_bound_after (rest : list Interval) :
  Sorted gapped rest -> Forall wellFormed rest ->
  forall cur,
    calculateUniqueTime (sweepFrom cur rest)
    <= lengthOf cur + calculateUniqueTime rest + 1.
Proof.
  induction rest as [|k r IH]; intros Hg Hw cur.
  - simpl. rewrite uniqueTime_cons, uniqueTime_nil. lra.
  - assert (Hk : wellFormed k) by now inversion Hw.
    assert (Hwr : Forall wellFormed r) by now inversion Hw.
    assert (Hgr : Sorted gapped r) by now inversion Hg.
    unfold wellFormed in Hk. rewrite (uniqueTime_cons k r).
    simpl. destruct (Qle_bool (start k) (end_ cur + 1)) eqn:E.
    + apply Qle_bool_iff in E.
      destruct (Math_max_cases (end_ cur) (end_ k)) as [[Hle ->]|[Hlt ->]].
      * specialize (IH Hgr Hwr (setEnd cur (end_ cur))).
        unfold lengthOf in *. simpl in IH. lra.
      * rewrite sweepFrom_gapped.
        -- rewrite uniqueTime_cons. unfold lengthOf. simpl. lra.
        -- constructor; [exact Hgr|].
           destruct r as [|k' r']; constructor.
           apply sorted_inv in Hg. unfold gapped in *. simpl. tauto.
    + rewrite sweepFrom_gapped by exact Hg.
      rewrite !uniqueTime_cons. lra.
Qed.

Lemma absorb_length (cur I : Interval) :
  wellFormed I -> start I <= end_ cur + 1 ->
  lengthOf (setEnd cur (Math_max (end_ cur) (end_ I)))
  <= lengthOf cur + lengthOf I + 1.
Proof.
  unfold wellFormed, lengthOf. intros HI H. simpl.
  destruct (Math_max_cases (end_ cur) (end_ I)) as [[_ ->]|[_ ->]]; lra.
Qed.

Lemma sweepFrom_place_bound (I : Interval) (S : list Interval) :
  wellFormed I -> Forall wellFormed S ->
  forall cur, Sorted gapped (cur :: S) ->
    calculateUniqueTime (sweepFrom cur (place I S))
    <= lengthOf cur + calculateUniqueTime S + lengthOf I + 2.
Proof.
  intros HI. induction S as [|k r IH]; intros Hw cur Hg.
  - simpl. destruct (Qle_bool (start I) (end_ cur + 1)) eqn:E.
    + apply Qle_bool_iff in E. pose proof (absorb_length cur I HI E).
      rewrite uniqueTime_cons, uniqueTime_nil. lra.
    + rewrite !uniqueTime_cons, uniqueTime_nil. lra.
  - assert (Hwr : Forall wellFormed r) by now inversion Hw.
    destruct (sorted_inv _ _ _ _ Hg) as [Hck Hgk]. unfold gapped in Hck.
    destruct (place_cases I k r) as [[_ ->]|[_ ->]].
    + simpl. assert (E : Qle_bool (start k) (end_ cur + 1) = false)
        by (apply Qle_bool_false; lra).
      rewrite E. specialize (IH Hwr k Hgk).
      rewrite !uniqueTime_cons. lra.
    + change (sweepFrom cur (I :: k :: r))
        with (if Qle_bool (start I) (end_ cur + 1)
              then sweepFrom (setEnd cur (Math_max (end_ cur) (end_ I))) (k :: r)
              else cur :: sweepFrom I (k :: r)).
      destruct (Qle_bool (start I) (end_ cur + 1)) eqn:E.
      * apply Qle_bool_iff in E. pose proof (absorb_length cur I HI E).
        pose proof (sweepFrom_bound_after (k :: r) Hgk Hw
                      (setEnd cur (Math_max (end_ cur) (end_ I)))).
        lra.
      * pose proof (sweepFrom_bound_after (k :: r) Hgk Hw I).
        rewrite uniqueTime_cons. lra.
Qed.

Lemma merge_place (a : Interval) (S : list Interval) (I : Interval) :
  Sorted startLe (a :: S) ->
  exists first rest,
    place I (a :: S) = first :: rest /\ merge (a :: S) I = sweepFrom first rest.
Proof.
  intros Hs. destruct (place I (a :: S)) as [|first rest] eqn:Hp.
  - destruct (place_cases I a S) as [[_ H]|[_ H]]; congruence.
  - exists first, rest. split; [reflexivity|].
    apply mergeIntervals_sweep; [rewrite length_app; simpl; lia|].
    now rewrite sort_snoc.
Qed.

Lemma merge_bound (S : list Interval) (I : Interval) :
  CoverageSet S -> Forall wellFormed S -> wellFormed I ->
  calculateUniqueTime (merge S I)
  <= calculateUniqueTime S + lengthOf I + 2.
Proof.
  intros HS Hw HI. destruct S as [|a S'].
  - change (merge [] I) with [I].
    rewrite uniqueTime_cons, !uniqueTime_nil. lra.
  - destruct (merge_place a S' I (CoverageSet_startLe _ HS))
      as (first & rest & Hp & ->).
    destruct (place_cases I a S') as [[_ Heq]|[_ Heq]];
      rewrite Heq in Hp; injection Hp as <- <-.
    + pose proof (sweepFrom_place_bound I S' HI
                    ltac:(now inversion Hw) a (CoverageSet_gapped _ HS)).
      rewrite uniqueTime_cons. lra.
    + pose proof (sweepFrom_bound_after (a :: S') (CoverageSet_gapped _ HS) Hw I).
      lra.
Qed.

Lemma place_gapped (I : Interval) (S : list Interval) :
  wellFormed I -> Forall wellFormed S -> Sorted gapped S ->
  (forall J, In J S -> apart I J) -> Sorted gapped (place I S).
Proof.
  unfold wellFormed at 1. intros HI.
  induction S as [|x r IH]; intros Hw Hg Hd; [repeat constructor|].
  assert (Hx : start x <= end_ x) by now inversion Hw.
  assert (Hwr : Forall wellFormed r) by now inversion Hw.
  assert (Hgr : Sorted gapped r) by now inversion Hg.
  assert (Hxd : apart I x) by (apply Hd; now left).
  assert (Hrd : forall J, In J r -> apart I J) by (intros J HJ; apply Hd; now right).
  unfold apart, gapped in Hxd.
  destruct (place_cases I x r) as [[Hle ->]|[Hlt ->]].
  - constructor; [now apply IH|].
    destruct r as [|y r']; [constructor; unfold gapped; lra|].
    destruct (place_cases I y r') as [[_ ->]|[_ ->]]; constructor.
    + now apply sorted_inv in Hg.
    + unfold gapped. lra.
  - constructor; [exact Hg|]. constructor. unfold gapped. lra.
Qed.

Lemma merge_apart (S : list Interval) (I : Interval) :
  CoverageSet S -> Forall wellFormed S -> wellFormed I ->
  (forall J, In J S -> apart I J) ->
  merge S I = place I S.
Proof.
  intros HS Hw HI Hd. destruct S as [|a S']; [reflexivity|].
  destruct (merge_place a S' I (CoverageSet_startLe _ HS))
    as (first & rest & Hp & ->).
  rewrite Hp. apply sweepFrom_gapped. rewrite <- Hp.
  apply place_gapped; [exact HI | exact Hw | now apply CoverageSet_gapped | exact Hd].
Qed.

(** C3, as the code has it.  For a coverage set [S] of intervals with
    [start <= end] and an interval [I] with [start <= end], the unique time
    after merging [I] is at most the unique time of [S] plus the length of [I]
    plus twice the tolerance (the merge fills a gap of at most 1 on either
    side of [I]); and when [I] is more than the tolerance apart from every
    interval of [S], it is exactly the unique time of [S] plus the length of
    [I]. *)
Theorem C3_coverage_bound_with_tolerance (S : list Interval) (I : Interval) :
  CoverageSet S -> Forall wellFormed S -> wellFormed I ->
  calculateUniqueTime (merge S I)
    <= calculateUniqueTime S + (end_ I - start I) + 2 /\
  ((forall J, In J S -> end_ J + 1 < start I \/ end_ I + 1 < start J) ->
   calculateUniqueTime (merge S I)
     == calculateUniqueTime S + (end_ I - start I)).
Proof.
  intros HS Hw HI. split.
  - exact (merge_bound S I HS Hw HI).
  - intros Hd. rewrite (merge_apart S I HS Hw HI Hd).
    apply uniqueTime_place.
Qed.

(** The claim of C3 fails at scenario-sized inputs: with [[0,10)] covered,
    merging [[10.5,20)] gives [[0,20)], of unique time 20, more than
    10 + 9.5. *)
Lemma C3_coverage_bound_counterexample :
  CoverageSet [mkInterval 0 10] /\
  wellFormed (mkInterval (21#2) 20) /\
  merge [mkInterval 0 10] (mkInterval (21#2) 20) = [mkInterval 0 20] /\
  ~ (calculateUniqueTime (merge [mkInterval 0 10] (mkInterval (21#2) 20))
     <= calculateUniqueTime [mkInterval 0 10]
        + (end_ (mkInterval (21#2) 20) - start (mkInterval (21#2) 20))).
Proof.
  split; [repeat constructor|].
  split; [unfold wellFormed; simpl; lra|].
  split; [reflexivity|].
  apply Qlt_not_le. reflexivity.
Qed.

(** C3 at a gap that is bridged on both sides: [[0,10)] and [[12.5,20)]
    covered, [[11,11.5)] merged. *)
Lemma C3_coverage_bound_with_tolerance_witness :
  calculateUniqueTime
    (merge [mkInterval 0 10; mkInterval (25#2) 20] (mkInterval 11 (23#2)))
  <= calculateUniqueTime [mkInterval 0 10; mkInterval (25#2) 20]
     + (end_ (mkInterval 11 (23#2)) - start (mkInterval 11 (23#2))) + 2.
Proof.
  refine (proj1 (C3_coverage_bound_with_tolerance
                   [mkInterval 0 10; mkInterval (25#2) 20]
                   (mkInterval 11 (23#2)) _ _ _)).
  - repeat constructor; simpl; lra.
  - repeat constructor; unfold wellFormed; simpl; lra.
  - unfold wellFormed; simpl; lra.
Defined.

(** Equality does not need [I] to be apart from [S]: an interval that
    starts exactly where a covered one ends adds exactly its length. *)
Example coverage_equality_when_touching :
  calculateUniqueTime (merge [mkInterval 0 10] (mkInterval 10 20))
  == calculateUniqueTime [mkInterval 0 10] + (20 - 10)
  /\ ~ (end_ (mkInterval 0 10) + 1 < start (mkInterval 10 20)
        \/ end_ (mkInterval 10 20) + 1 < start (mkInterval 0 10)).
Proof.
  split; [reflexivity|]. simpl. intros [H|H]; lra.
Qed.

(** ** Closing a segment *)

Lemma recordWatchedSegment_long (s : State) (start0 : Q) (video : Video) :
  currentWatchStart s = Some start0 -> videoRef s = Some video ->
  1#2 <= currentTime video - start0 ->
  watchedIntervals (recordWatchedSegment s)
    = merge (watchedIntervals s) (mkInterval start0 (currentTime video)) /\
  sessionWatchedTime (recordWatchedSegment s)
    = sessionWatchedTime s + (currentTime video - start0).
Proof.
  intros Hs Hv Hlen. unfold recordWatchedSegment. rewrite Hs, Hv.
  assert (E1 : gtb (currentTime video) start0 = true) by (apply gtb_true; lra).
  assert (E2 : geb (currentTime video - start0) (1#2) = true)
    by (apply geb_true; exact Hlen).
  rewrite E1, E2. simpl. split; reflexivity.
Qed.

Lemma recordWatchedSegment_short (s : State) (start0 : Q) (video : Video) :
  currentWatchStart s = Some start0 -> videoRef s = Some video ->
  currentTime video - start0 < 1#2 ->
  recordWatchedSegment s = setCurrentWatchStart None s.
Proof.
  intros Hs Hv Hlen. unfold recordWatchedSegment. rewrite Hs, Hv.
  assert (E2 : geb (currentTime video - start0) (1#2) = false)
    by (apply Qle_bool_false; exact Hlen).
  now rewrite E2, andb_false_r.
Qed.

Lemma recordWatchedSegment_start (s : State) :
  currentWatchStart (recordWatchedSegment s) = None.
Proof. reflexivity. Qed.

Lemma recordWatchedSegment_videoRef (s : State) :
  videoRef (recordWatchedSegment s) = videoRef s.
Proof.
  destruct s as [? ? ? ? ? ? cws ? ? v ?]. unfold recordWatchedSegment. simpl.
  destruct cws, v; try reflexivity.
  destruct (gtb _ _ && geb _ _); reflexivity.
Qed.

(** C7.  Closing an open segment: when its length is below 0.5 neither the
    watched intervals nor the session time change; when its length is at
    least 0.5 the segment is merged into the watched intervals and its length
    is added to the session time.  Either way no segment stays open. *)
Theorem C7_short_segment_discarded (s : State) (start0 : Q) (video : Video) :
  currentWatchStart s = Some start0 -> videoRef s = Some video ->
  (currentTime video - start0 < 1#2 ->
     watchedIntervals (recordWatchedSegment s) = watchedIntervals s /\
     sessionWatchedTime (recordWatchedSegment s) = sessionWatchedTime s) /\
  (1#2 <= currentTime video - start0 ->
     watchedIntervals (recordWatchedSegment s)
       = merge (watchedIntervals s) (mkInterval start0 (currentTime video)) /\
     sessionWatchedTime (recordWatchedSegment s)
       = sessionWatchedTime s + (currentTime video - start0)) /\
  currentWatchStart (recordWatchedSegment s) = None.
Proof.
  intros Hs Hv. split; [|split].
  - intros Hlen. rewrite (recordWatchedSegment_short s start0 video Hs Hv Hlen).
    split; reflexivity.
  - intros Hlen. exact (recordWatchedSegment_long s start0 video Hs Hv Hlen).
  - reflexivity.
Qed.

Lemma C7_short_segment_discarded_witness :
  watchedIntervals (recordWatchedSegment scenarioD) = [mkInterval 0 10] /\
  sessionWatchedTime (recordWatchedSegment scenarioD) = 10.
Proof.
  refine (proj1 (C7_short_segment_discarded scenarioD 20
                   (mkVideo (203#10) true 100) eq_refl eq_refl) _).
  simpl. lra.
Defined.

(** ** A jump seen by [handleTimeUpdate] *)

Lemma handleTimeUpdate_jump (s : State) (video : Video) :
  videoRef s = Some video ->
  2 < Math_abs (currentTime video - lastPosition s) ->
  handleTimeUpdate s
  = setLastPosition (currentTime video)
      (if negb (paused video)
       then setCurrentWatchStart (Some (currentTime video))
              (recordWatchedSegment s)
       else recordWatchedSegment s).
Proof.
  intros Hv Hj. unfold handleTimeUpdate. rewrite Hv.
  apply gtb_true in Hj. now rewrite Hj.
Qed.

(** C4, what the code does.  When [handleTimeUpdate] sees a jump of more
    than 2 seconds while a segment is open, the segment is closed at the
    video's current time, the position after the jump, and not at the
    position before it; a new segment is opened at the current time exactly
    when the video is not paused. *)
Theorem C4_seek_closes_at_current_time (s : State) (video : Video) (start0 : Q) :
  videoRef s = Some video -> currentWatchStart s = Some start0 ->
  2 < Math_abs (currentTime video - lastPosition s) ->
  1#2 <= currentTime video - start0 ->
  watchedIntervals (handleTimeUpdate s)
    = merge (watchedIntervals s) (mkInterval start0 (currentTime video)) /\
  currentWatchStart (handleTimeUpdate s)
    = (if paused video then None else Some (currentTime video)) /\
  lastPosition (handleTimeUpdate s) = currentTime video.
Proof.
  intros Hv Hs Hj Hlen. rewrite (handleTimeUpdate_jump s video Hv Hj).
  destruct (recordWatchedSegment_long s start0 video Hs Hv Hlen) as [Hi _].
  destruct (paused video); cbn [negb];
    (split; [exact Hi | split; reflexivity]).
Qed.

(** At [jumpForward] the recorded segment is [[0,100)], the jumped-over span
    included, where closing at the position before the jump would have
    recorded [[0,5)]. *)
Lemma C4_seek_closes_at_current_time_witness :
  watchedIntervals (handleTimeUpdate jumpForward) = [mkInterval 0 100] /\
  currentWatchStart (handleTimeUpdate jumpForward) = Some 100 /\
  lastPosition (handleTimeUpdate jumpForward) = 100.
Proof.
  refine (C4_seek_closes_at_current_time jumpForward
            (mkVideo 100 false 120) 0 eq_refl eq_refl _ _).
  - reflexivity.
  - simpl. lra.
Defined.

(** The same jump backwards: playing from 50, last seen at 60, the player
    jumps to 10.  The open segment ends before it starts and is dropped: the
    ten seconds watched are not recorded. *)
Example jump_backward_drops_segment :
  watchedIntervals
    (handleTimeUpdate
       (mkState [] 0 0 120 0 true (Some 50) 60 false
          (Some (mkVideo 10 false 120)) NoItem)) = [].
Proof. reflexivity. Qed.

(** ** Metadata *)

(** C6, as the code has it.  Every metadata event sets [totalDuration] to the
    duration the video reports, whatever the value was before; nothing else of
    the state changes. *)
Theorem C6_metadata_overwrites_duration (s : State) (video : Video) :
  videoRef s = Some video ->
  handleLoadedMetadata s = setTotalDuration (duration video) s /\
  totalDuration (handleLoadedMetadata s) = duration video.
Proof.
  intros Hv. unfold handleLoadedMetadata. rewrite Hv. split; reflexivity.
Qed.

Lemma C6_metadata_overwrites_duration_witness :
  totalDuration
    (handleLoadedMetadata
       (mkState [] 0 0 100 0 false None 0 false
          (Some (mkVideo 0 true 200)) NoItem)) = 200.
Proof.
  exact (proj2 (C6_metadata_overwrites_duration
                  (mkState [] 0 0 100 0 false None 0 false
                     (Some (mkVideo 0 true 200)) NoItem)
                  (mkVideo 0 true 200) eq_refl)).
Defined.

(** The claim of C6 fails: with [totalDuration] already 100, a metadata event
    of a video that reports 200 is no no-op, the value becomes 200. *)
Lemma C6_set_once_counterexample :
  0 < totalDuration (mkState [] 0 0 100 0 false None 0 false
                       (Some (mkVideo 0 true 200)) NoItem) /\
  ~ (totalDuration
       (handleLoadedMetadata
          (mkState [] 0 0 100 0 false None 0 false
             (Some (mkVideo 0 true 200)) NoItem)) == 100).
Proof.
  split; [reflexivity|]. simpl. intros H. discriminate H.
Qed.

(** ** Loading *)

Lemma loadProgress_intervals (s : State) (data : ProgressData.t) :
  watchedIntervals (loadProgress (withItem data s))
  = fieldOrEmpty (ProgressData.intervals data).
Proof.
  destruct s as [? ? ? ? ? ? ? ? r v ?], data as [i p ? ? ? ?].
  unfold loadProgress, withItem, resumePosition. simpl.
  destruct v, p as [p|]; try reflexivity.
  destruct (truthy p && negb r); reflexivity.
Qed.

Lemma loadProgress_sessionTime (s : State) (data : ProgressData.t) :
  sessionWatchedTime (loadProgress (withItem data s))
  = fieldOrZero (ProgressData.sessionTime data).
Proof.
  destruct s as [? ? ? ? ? ? ? ? r v ?], data as [i p ? ? ? ?].
  unfold loadProgress, withItem, resumePosition. simpl.
  destruct v, p as [p|]; try reflexivity.
  destruct (truthy p && negb r); reflexivity.
Qed.

Lemma loadProgress_untouched (s : State) (data : ProgressData.t) :
  totalDuration (loadProgress (withItem data s)) = totalDuration s /\
  currentProgress (loadProgress (withItem data s)) = currentProgress s /\
  uniqueWatchedTime (loadProgress (withItem data s)) = uniqueWatchedTime s /\
  currentWatchStart (loadProgress (withItem data s)) = currentWatchStart s.
Proof.
  destruct s as [? ? ? ? ? ? ? ? r v ?], data as [i p ? ? ? ?].
  unfold loadProgress, withItem, resumePosition. simpl.
  destruct v, p as [p|]; try (repeat split; reflexivity).
  destruct (truthy p && negb r); repeat split; reflexivity.
Qed.

Lemma truthy_true (x : Q) : truthy x = true <-> ~ x == 0.
Proof.
  unfold truthy. rewrite negb_true_iff. split.
  - intros H E. apply Qeq_bool_iff in E. congruence.
  - intros H. destruct (Qeq_bool x 0) eqn:E; [|reflexivity].
    apply Qeq_bool_iff in E. contradiction.
Qed.

Lemma truthy_false (x : Q) : truthy x = false <-> x == 0.
Proof.
  unfold truthy. rewrite negb_false_iff. apply Qeq_bool_iff.
Qed.

Lemma orZero_eq (x : Q) : orZero x == x.
Proof.
  unfold orZero. destruct (truthy x) eqn:E; [reflexivity|].
  apply truthy_false in E. now rewrite E.
Qed.

Lemma orZero_truthy (x : Q) : truthy x = true -> orZero x = x.
Proof. unfold orZero. now intros ->. Qed.

Lemma truthy_orZero (x : Q) : truthy (orZero x) = truthy x.
Proof. unfold orZero. destruct (truthy x) eqn:E; [exact E | reflexivity]. Qed.

Lemma resumePosition_spec (s : State) (data : ProgressData.t) (p : Q) :
  resumePosition s data = Some p <->
  videoRef s <> None /\ ProgressData.lastPosition data = Some p /\
  ~ p == 0 /\ hasResumed s = false.
Proof.
  unfold resumePosition.
  destruct (videoRef s) as [v|], (ProgressData.lastPosition data) as [q|];
    try (split; [discriminate | intros (H1 & H2 & _); congruence]).
  destruct (truthy q && negb (hasResumed s)) eqn:E.
  - apply andb_true_iff in E. destruct E as [Et Er].
    apply truthy_true in Et. apply negb_true_iff in Er.
    split.
    + intros H. injection H as <-. repeat split; [discriminate | exact Et | exact Er].
    + intros (_ & H & _). exact H.
  - split; [discriminate|]. intros (_ & H & Hp & Hr). injection H as ->.
    apply truthy_true in Hp. rewrite Hp, Hr in E. discriminate.
Qed.

Lemma loadProgress_resume (s : State) (data : ProgressData.t) :
  match resumePosition s data, videoRef s with
  | Some p, Some video =>
      videoRef (loadProgress (withItem data s)) = Some (seekTo p video) /\
      lastPosition (loadProgress (withItem data s)) = p /\
      hasResumed (loadProgress (withItem data s)) = true
  | _, _ =>
      videoRef (loadProgress (withItem data s)) = videoRef s /\
      lastPosition (loadProgress (withItem data s)) = lastPosition s /\
      hasResumed (loadProgress (withItem data s)) = hasResumed s
  end.
Proof.
  destruct s as [? ? ? ? ? ? ? ? r v ?], data as [i p ? ? ? ?].
  unfold loadProgress, withItem, resumePosition. simpl.
  destruct v, p as [p|]; try (repeat split; reflexivity).
  destruct (truthy p && negb r); repeat split; reflexivity.
Qed.

(** C9.  [loadProgress] installs the intervals array of the stored payload as
    it is: nothing sorts, merges or checks it.  So a payload with unsorted,
    overlapping, empty or reversed intervals leaves watched intervals that
    break the coverage-set invariant, or hold an interval that ends before it
    starts.  The next merge gives the invariant back. *)
Theorem C9_load_installs_intervals_verbatim :
  (forall (s : State) (l : list Interval) (p : option Q),
      watchedIntervals (loadProgress (withItem (payload l p) s)) = l) /\
  (forall s : State,
      ~ CoverageSet
          (watchedIntervals
             (loadProgress
                (withItem (payload [mkInterval 20 30; mkInterval 0 25] None) s)))) /\
  (forall s : State,
      ~ Forall wellFormed
          (watchedIntervals
             (loadProgress
                (withItem (payload [mkInterval 5 5; mkInterval 9 3] None) s)))) /\
  (forall (s : State) (l : list Interval) (p : option Q) (I : Interval),
      CoverageSet
        (merge (watchedIntervals (loadProgress (withItem (payload l p) s))) I)).
Proof.
  split; [|split; [|split]].
  - intros s l p. apply loadProgress_intervals.
  - intros s. rewrite loadProgress_intervals. simpl. intros H.
    apply sorted_inv in H. destruct H as [(H & _) _]. simpl in H. lra.
  - intros s. rewrite loadProgress_intervals. simpl. intros H.
    inversion H as [|? ? _ H2]; subst. inversion H2 as [|? ? H3 _]; subst.
    unfold wellFormed in H3. simpl in H3. lra.
  - intros s l p I. apply mergeIntervals_CoverageSet.
Qed.

(** C10.  [loadProgress] moves the player only through the guard
    [videoRef.current && data.lastPosition && !hasResumed.current].  With the
    stored position missing or zero the video, the last-position ref and the
    resumed flag stay as they are; so they do once the flag is set.  With a
    video element, a stored position above zero and the flag unset, the video
    is moved there, the ref follows and the flag is set.  For a stored
    position that is not negative, as every position written by
    [saveProgressToStorage] is, these are the only loads that set the flag or
    move the video. *)
Theorem C10_resume_needs_positive_position (s : State) (data : ProgressData.t) :
  (forall p, ProgressData.lastPosition data = Some p -> 0 <= p) ->
  ((ProgressData.lastPosition data = None \/
    (exists p, ProgressData.lastPosition data = Some p /\ p == 0) \/
    hasResumed s = true) ->
   videoRef (loadProgress (withItem data s)) = videoRef s /\
   lastPosition (loadProgress (withItem data s)) = lastPosition s /\
   hasResumed (loadProgress (withItem data s)) = hasResumed s) /\
  (forall video p,
     videoRef s = Some video -> ProgressData.lastPosition data = Some p ->
     0 < p -> hasResumed s = false ->
     videoRef (loadProgress (withItem data s)) = Some (seekTo p video) /\
     lastPosition (loadProgress (withItem data s)) = p /\
     hasResumed (loadProgress (withItem data s)) = true) /\
  ((hasResumed (loadProgress (withItem data s)) <> hasResumed s \/
    videoRef (loadProgress (withItem data s)) <> videoRef s) ->
   exists p, ProgressData.lastPosition data = Some p /\ 0 < p /\
             hasResumed s = false).
Proof.
  intros Hpos. pose proof (loadProgress_resume s data) as L.
  split; [|split].
  - intros H. destruct (resumePosition s data) as [q|] eqn:E.
    + apply resumePosition_spec in E. destruct E as (_ & Hq & Hnz & Hr).
      destruct H as [H|[(p & Hp & Hz)|H]]; congruence.
    + exact L.
  - intros video p Hv Hp Hgt Hr.
    assert (E : resumePosition s data = Some p).
    { apply resumePosition_spec. repeat split; try assumption; [congruence|].
      intros Hz. rewrite Hz in Hgt. lra. }
    rewrite E, Hv in L. exact L.
  - intros H. destruct (resumePosition s data) as [q|] eqn:E.
    + apply resumePosition_spec in E. destruct E as (_ & Hq & Hnz & Hr).
      exists q. repeat split; [exact Hq | | exact Hr].
      specialize (Hpos q Hq). destruct (Qlt_le_dec 0 q) as [Hlt|Hle]; [exact Hlt|].
      exfalso. apply Hnz. lra.
    + destruct L as (Hv & _ & Hr). destruct H as [H|H]; contradiction.
Qed.

(** A viewer whose stored position is 0 loads into a fresh component. *)
Lemma C10_resume_needs_positive_position_witness :
  videoRef (loadProgress (withItem (payload [] (Some 0))
                            (mount (mkVideo 0 true 100) NoItem)))
    = Some (mkVideo 0 true 100) /\
  hasResumed (loadProgress (withItem (payload [] (Some 0))
                              (mount (mkVideo 0 true 100) NoItem))) = false.
Proof.
  assert (Hpos : forall p, ProgressData.lastPosition (payload [] (Some 0)) = Some p
                           -> 0 <= p).
  { intros p H. injection H as <-. lra. }
  destruct (C10_resume_needs_positive_position
              (mount (mkVideo 0 true 100) NoItem) (payload [] (Some 0)) Hpos)
    as (H & _).
  destruct H as (Hv & _ & Hr).
  - right. left. exists 0. split; reflexivity.
  - split; [exact Hv | exact Hr].
Defined.

(** A stored position below zero, which [saveProgressToStorage] never writes,
    passes the guard as well: the test is for a number other than zero. *)
Example negative_position_is_restored :
  hasResumed (loadProgress (withItem (payload [] (Some (-5)))
                              (mount (mkVideo 0 true 100) NoItem))) = true.
Proof. reflexivity. Qed.

(** ** Sessions *)

Lemma sort_Forall (P : Interval -> Prop) (l : list Interval) :
  Forall P l -> Forall P (sort byStart l).
Proof.
  rewrite !Forall_forall. intros H x Hx. apply H, sort_In, Hx.
Qed.

Lemma sweepFrom_inside (d : Q) (rest : list Interval) :
  forall cur, inside d cur -> Forall (inside d) rest ->
              Forall (inside d) (sweepFrom cur rest).
Proof.
  induction rest as [|k r IH]; intros cur Hc Hr; simpl.
  - now constructor.
  - inversion Hr as [|? ? Hk Hr']; subst.
    destruct (Qle_bool (start k) (end_ cur + 1)).
    + apply IH; [|exact Hr']. unfold inside in *. simpl.
      destruct (Math_max_cases (end_ cur) (end_ k)) as [[? ->]|[? ->]]; lra.
    + constructor; [exact Hc | now apply IH].
Qed.

Lemma mergeIntervals_inside (d : Q) (l : list Interval) :
  Forall (inside d) l -> Forall (inside d) (mergeIntervals l).
Proof.
  intros H. destruct (le_lt_dec (length l) 1) as [Hlen|Hlen].
  - unfold mergeIntervals. apply Nat.leb_le in Hlen. now rewrite Hlen.
  - destruct (sort byStart l) as [|first rest] eqn:Hs.
    + pose proof (sort_length l) as Hl. rewrite Hs in Hl. simpl in Hl. lia.
    + rewrite (mergeIntervals_sweep l first rest Hlen Hs).
      apply (sort_Forall _ _) in H. rewrite Hs in H.
      inversion H; subst. now apply sweepFrom_inside.
Qed.

Lemma merge_covers (d : Q) (l : list Interval) (I : Interval) :
  Forall (inside d) l -> inside d I -> covers d (merge l I).
Proof.
  intros Hl HI. split; [apply mergeIntervals_CoverageSet|].
  apply mergeIntervals_inside, Forall_app. split; [exact Hl | now constructor].
Qed.

Lemma uniqueTime_from (d : Q) (l : list Interval) :
  forall a, Sorted gapped (a :: l) -> Forall (inside d) (a :: l) ->
            calculateUniqueTime (a :: l) <= d - start a.
Proof.
  induction l as [|b l IH]; intros a Hg Hi.
  - inversion Hi as [|? ? (H0 & H1 & H2) _]; subst.
    rewrite uniqueTime_cons, uniqueTime_nil. unfold lengthOf. lra.
  - destruct (sorted_inv _ _ _ _ Hg) as [Hab Hbl]. unfold gapped in Hab.
    inversion Hi as [|? ? (H0 & H1 & H2) Hi']; subst.
    specialize (IH b Hbl Hi'). rewrite uniqueTime_cons. unfold lengthOf. lra.
Qed.

Lemma uniqueTime_le_duration (d : Q) (l : list Interval) :
  0 <= d -> covers d l -> calculateUniqueTime l <= d.
Proof.
  intros Hd [Hc Hi]. destruct l as [|a l]; [rewrite uniqueTime_nil; exact Hd|].
  pose proof (uniqueTime_from d l a (CoverageSet_gapped _ Hc) Hi) as H.
  inversion Hi as [|? ? (H0 & _) _]; subst. lra.
Qed.

(** ** What every reachable state satisfies *)

Section Invariant.

Variable d : Q.
Hypothesis d_pos : 0 < d.

Lemma covers_nil : covers d [].
Proof. split; constructor. Qed.

Lemma startOk_None : startOk d None.
Proof. intros t H. discriminate. Qed.

Lemma startOk_video (video : Video) :
  videoOk d (Some video) -> startOk d (Some (currentTime video)).
Proof.
  intros Hv t H. injection H as <-. destruct (Hv video eq_refl) as (? & ? & _).
  split; assumption.
Qed.

Lemma Engine_recordWatchedSegment (s : State) :
  Engine d s -> Engine d (recordWatchedSegment s).
Proof.
  destruct s as [l pr u tot ses pl cws lp r v item].
  intros [[Hc Hi] Hst Hv Hs Ht Hp]. fields.
  unfold recordWatchedSegment. fields.
  destruct cws as [t|], v as [video|];
    try (constructor; fields; auto using startOk_None; now split).
  destruct (gtb (currentTime video) t && geb (currentTime video - t) (1#2)) eqn:E;
    [|constructor; fields; auto using startOk_None; now split].
  apply andb_true_iff in E. destruct E as [E _]. apply gtb_true in E.
  destruct (Hv video eq_refl) as (Hv0 & Hv1 & _).
  destruct (Hs t eq_refl) as (Hs0 & Hs1).
  constructor; fields; auto using startOk_None.
  apply merge_covers; [exact Hi|]. unfold inside. fields. lra.
Qed.

Lemma Engine_setIsPlaying (b : bool) (s : State) :
  Engine d s -> Engine d (setIsPlaying b s).
Proof. intros [? ? ? ? ? ?]. constructor; assumption. Qed.

Lemma Engine_setLastPosition (t : Q) (s : State) :
  Engine d s -> Engine d (setLastPosition t s).
Proof. intros [? ? ? ? ? ?]. constructor; assumption. Qed.

Lemma Engine_setCurrentWatchStart (c : option Q) (s : State) :
  startOk d c -> Engine d s -> Engine d (setCurrentWatchStart c s).
Proof. intros Hc [? ? ? ? ? ?]. constructor; assumption. Qed.

Lemma Engine_reopen (video : Video) (s : State) :
  videoRef s = Some video -> Engine d s ->
  Engine d (if negb (paused video)
          then setCurrentWatchStart (Some (currentTime video)) s
          else s).
Proof.
  intros Hv He. destruct (negb (paused video)); [|exact He].
  apply Engine_setCurrentWatchStart; [|exact He].
  apply startOk_video. rewrite <- Hv. apply He.
Qed.

Lemma Engine_handlePlay (s : State) : Engine d s -> Engine d (handlePlay s).
Proof.
  intros He. unfold handlePlay.
  change (videoRef (setIsPlaying true s)) with (videoRef s).
  destruct (videoRef s) as [video|] eqn:Hv; [|now apply Engine_setIsPlaying].
  apply Engine_setCurrentWatchStart; [|now apply Engine_setIsPlaying].
  apply startOk_video. rewrite <- Hv. apply He.
Qed.

Lemma Engine_handleSeeked (s : State) : Engine d s -> Engine d (handleSeeked s).
Proof.
  intros He. unfold handleSeeked.
  pose proof (Engine_recordWatchedSegment s He) as Hr.
  destruct (videoRef (recordWatchedSegment s)) as [video|] eqn:Hv; [|exact Hr].
  now apply Engine_reopen.
Qed.

Lemma Engine_handleTimeUpdate (s : State) :
  Engine d s -> Engine d (handleTimeUpdate s).
Proof.
  intros He. unfold handleTimeUpdate.
  destruct (videoRef s) as [video|] eqn:Hv; [|exact He].
  apply Engine_setLastPosition.
  destruct (gtb _ 2); [|exact He].
  apply Engine_reopen; [|now apply Engine_recordWatchedSegment].
  now rewrite recordWatchedSegment_videoRef.
Qed.

Lemma Engine_handleLoadedMetadata (s : State) :
  Engine d s -> Engine d (handleLoadedMetadata s).
Proof.
  intros He. unfold handleLoadedMetadata.
  destruct (videoRef s) as [video|] eqn:Hv; [|exact He].
  destruct He as [Hc Hst Hvo Hs Ht Hp].
  destruct (Hvo video Hv) as (_ & _ & Hd).
  constructor; fields; try assumption.
  - now right.
  - intros H. rewrite Hd in H. rewrite H in d_pos. lra.
Qed.

Lemma Engine_loadProgress (s : State) : Engine d s -> Engine d (loadProgress s).
Proof.
  destruct s as [l pr u tot ses pl cws lp r v item].
  intros [Hc Hst Hv Hs Ht Hp]. fields.
  unfold loadProgress, resumePosition. fields.
  destruct item as [| |data]; try (constructor; assumption).
  pose proof Hst as [Hsc Hsp].
  destruct v as [video|];
    [|destruct (ProgressData.lastPosition data);
      constructor; fields; assumption].
  destruct (ProgressData.lastPosition data) as [p|] eqn:Hlp;
    [|constructor; fields; assumption].
  destruct (truthy p && negb r);
    constructor; fields; try assumption.
  intros video' H. injection H as <-. fields.
  destruct (Hv video eq_refl) as (_ & _ & Hd).
  destruct (Hsp p eq_refl) as (? & ?). auto.
Qed.

Lemma orZero_range (x : Q) : 0 <= x /\ x <= d -> 0 <= orZero x /\ orZero x <= d.
Proof. unfold orZero. destruct (truthy x); [tauto|]. intros _. lra. Qed.

Lemma Engine_saveProgressToStorage (now : Z) (s : State) :
  Engine d s -> Engine d (saveProgressToStorage now s).
Proof.
  intros [Hc Hst Hv Hs Ht Hp]. constructor; try assumption.
  unfold saveProgressToStorage, progressData. fields. cbn.
  split; [exact Hc|]. intros p H. injection H as <-.
  destruct (videoRef s) as [video|]; [|lra].
  apply orZero_range. destruct (Hv video eq_refl) as (? & ? & _). auto.
Qed.

Lemma Engine_resetProgress (s : State) : Engine d s -> Engine d (resetProgress s).
Proof.
  destruct s as [l pr u tot ses pl cws lp r v item].
  intros [Hc Hst Hv Hs Ht Hp]. fields.
  unfold resetProgress. fields.
  destruct v as [video|]; constructor; fields;
    auto using covers_nil, startOk_None; try exact I; try (intros _; lra).
  intros video' H. injection H as <-. fields.
  destruct (Hv video eq_refl) as (_ & _ & Hd). repeat split; [lra | lra | exact Hd].
Qed.

Lemma Engine_mount (item : StorageItem) :
  storedOk d item -> Engine d (mount (freshVideo d) item).
Proof.
  intros Hst. constructor; fields;
    auto using covers_nil, startOk_None; try lra.
  intros video H. injection H as <-. fields. repeat split; lra.
Qed.

Lemma Engine_handle (e : Event) (s : State) :
  allowed d e -> Engine d s -> Engine d (handle d e s).
Proof.
  intros Ha He. destruct e; simpl handle.
  - now apply Engine_handlePlay.
  - now apply Engine_recordWatchedSegment, Engine_setIsPlaying.
  - now apply Engine_handleSeeked.
  - now apply Engine_handleTimeUpdate.
  - now apply Engine_recordWatchedSegment, Engine_setIsPlaying.
  - now apply Engine_handleLoadedMetadata.
  - now apply Engine_loadProgress.
  - now apply Engine_saveProgressToStorage.
  - now apply Engine_resetProgress.
  - destruct (videoRef s) as [video|] eqn:Hv; [|exact He].
    destruct He as [Hc Hst Hvo Hs Ht Hp]. constructor; fields; try assumption.
    intros video' H. injection H as <-. fields.
    destruct (Hvo video Hv) as (_ & _ & Hd). simpl in Ha. tauto.
  - apply Engine_mount, He.
Qed.

Lemma Engine_updateDisplay (s : State) :
  Engine d s -> Engine d (updateDisplay s) /\ Settled (updateDisplay s).
Proof.
  destruct s as [l pr u tot ses pl cws lp r v item].
  intros [Hc Hst Hv Hs Ht Hp]. fields.
  unfold updateDisplay, Settled. fields.
  destruct (gtb tot 0) eqn:E; fields.
  - apply gtb_true in E. split; [|intros _; reflexivity].
    constructor; fields; try assumption.
    intros H. rewrite H in E. lra.
  - apply gtb_false in E. split; [now constructor|]. intros H. lra.
Qed.

Lemma reachable_Engine (s : State) :
  reachable d s -> Engine d s /\ Settled s.
Proof.
  induction 1 as [|s e Hr [IH _] Ha].
  - split; [apply Engine_mount; exact I|]. unfold Settled. fields. lra.
  - now apply Engine_updateDisplay, Engine_handle.
Qed.

Lemma progress_bound (u : Q) : u <= d -> u / d * 100 <= 100.
Proof.
  intros H. assert (Hq : u / d <= 1) by (apply Qle_shift_div_r; lra). lra.
Qed.

End Invariant.

(** ** Progress *)

(** C8.  In every reachable state of a session on a video of duration
    [d > 0]: the progress is the unique time over the total duration times
    100 when the total duration is above zero, it is 0 otherwise, and it is at
    most 100. *)
Theorem C8_progress_percent (d : Q) (s : State) :
  0 < d -> reachable d s ->
  (0 < totalDuration s ->
   currentProgress s
   == calculateUniqueTime (watchedIntervals s) / totalDuration s * 100) /\
  (~ 0 < totalDuration s -> currentProgress s == 0) /\
  currentProgress s <= 100.
Proof.
  intros Hd Hr. destruct (reachable_Engine d Hd s Hr) as [He Hs].
  destruct He as [Hc _ _ _ Ht Hp]. split; [exact Hs|].
  destruct Ht as [Ht|Ht].
  - specialize (Hp Ht). split; [intros _; exact Hp|]. rewrite Hp. lra.
  - assert (Hpos : 0 < totalDuration s) by (rewrite Ht; exact Hd).
    split; [intros H; contradiction|].
    rewrite (Hs Hpos), Ht. apply progress_bound; [exact Hd|].
    apply uniqueTime_le_duration; [lra | exact Hc].
Qed.

Lemma scenarioE_reachable : reachable 100 scenarioE.
Proof.
  unfold scenarioE. repeat apply reachable_step; try exact I.
  - apply reachable_mount.
  - simpl. lra.
Qed.

Lemma C8_progress_percent_witness :
  totalDuration scenarioE = 100 /\
  watchedIntervals scenarioE = [mkInterval 0 37] /\
  currentProgress scenarioE == 37 /\
  currentProgress scenarioE <= 100.
Proof.
  destruct (C8_progress_percent 100 scenarioE eq_refl scenarioE_reachable)
    as (H1 & _ & H3).
  split; [reflexivity|]. split; [reflexivity|]. split; [|exact H3].
  rewrite H1 by reflexivity. reflexivity.
Defined.

(** The bound rests on the stored item being one that the component wrote.
    An item from elsewhere, here one interval of 150 seconds for a video of
    100, is installed as it is and shows as 150 percent. *)
Example foreign_item_exceeds_100 :
  currentProgress
    (dispatch 100 LoadedMetadata
       (dispatch 100 LoadProgress
          (mount (freshVideo 100) (Item (payload [mkInterval 0 150] None)))))
  == 150.
Proof. reflexivity. Qed.

(** ** Saving, then loading *)

Lemma progressData_records (now : Z) (s : State) :
  records (progressData now s) s.
Proof.
  unfold records, progressData, position. cbn.
  repeat split; try reflexivity.
  destruct (videoRef s) as [video|].
  - exists (orZero (currentTime video)). split; [reflexivity | apply orZero_eq].
  - exists 0. split; reflexivity.
Qed.

Lemma load_saved (now : Z) (s0 s : State) :
  sessionStorage s = Item (progressData now s0) ->
  watchedIntervals s0 = watchedIntervals s ->
  sessionWatchedTime s0 = sessionWatchedTime s ->
  videoRef s0 = videoRef s ->
  sameProgress (loadProgress s) s.
Proof.
  destruct s as [l pr u tot ses pl cws lp r v item].
  destruct s0 as [l0 pr0 u0 tot0 ses0 pl0 cws0 lp0 r0 v0 item0].
  fields. intros -> -> -> ->.
  unfold sameProgress, position, loadProgress, progressData, resumePosition.
  fields. cbn [ProgressData.intervals ProgressData.lastPosition
               ProgressData.sessionTime fieldOrEmpty fieldOrZero].
  destruct v as [video|]; fields.
  - rewrite truthy_orZero.
    destruct (truthy (currentTime video) && negb r) eqn:E; fields.
    + apply andb_true_iff in E. destruct E as [E _].
      rewrite (orZero_truthy _ E).
      repeat split; try reflexivity. apply orZero_eq.
    + repeat split; try reflexivity. apply orZero_eq.
  - repeat split; try reflexivity. apply orZero_eq.
Qed.

Lemma updateDisplay_fields (s : State) :
  watchedIntervals (updateDisplay s) = watchedIntervals s /\
  sessionWatchedTime (updateDisplay s) = sessionWatchedTime s /\
  videoRef (updateDisplay s) = videoRef s /\
  sessionStorage (updateDisplay s) = sessionStorage s.
Proof.
  unfold updateDisplay.
  destruct (gtb (totalDuration (setUniqueWatchedTime _ s)) 0);
    repeat split; reflexivity.
Qed.

Lemma updateDisplay_sameProgress (s : State) :
  Settled s -> sameProgress (updateDisplay s) s.
Proof.
  destruct s as [l pr u tot ses pl cws lp r v item].
  unfold Settled, sameProgress, position, updateDisplay. fields. intros Hs.
  destruct (gtb tot 0) eqn:E; fields; repeat split; try reflexivity.
  apply gtb_true in E. symmetry. exact (Hs E).
Qed.

Lemma Settled_same (a b : State) :
  watchedIntervals a = watchedIntervals b ->
  totalDuration a = totalDuration b ->
  currentProgress a == currentProgress b ->
  Settled b -> Settled a.
Proof.
  unfold Settled. intros -> -> Hp Hs H. rewrite Hp. exact (Hs H).
Qed.

Lemma sameProgress_trans (a b c : State) :
  sameProgress a b -> sameProgress b c -> sameProgress a c.
Proof.
  intros (H1 & H2 & H3 & H4 & H5) (K1 & K2 & K3 & K4 & K5).
  repeat split; try congruence; [rewrite H4 | rewrite H5]; assumption.
Qed.

Lemma Settled_sameProgress (a b : State) :
  sameProgress a b -> Settled b -> Settled a.
Proof.
  intros (H1 & _ & H3 & _ & H5). now apply Settled_same.
Qed.

(** Loading into the component that has just saved changes none of the five
    values; for the total duration and the progress that is because
    [loadProgress] does not touch them. *)
Lemma load_into_same_component (d : Q) (now : Z) (s : State) :
  0 < d -> reachable d s ->
  sameProgress (dispatch d LoadProgress (dispatch d (SaveProgress now) s)) s.
Proof.
  intros Hd Hr. destruct (reachable_Engine d Hd s Hr) as [_ Hs].
  unfold dispatch. cbn [handle].
  assert (H1 : sameProgress (saveProgressToStorage now s) s)
    by (repeat split; reflexivity).
  assert (S1 : Settled (saveProgressToStorage now s)) by exact Hs.
  pose proof (updateDisplay_sameProgress _ S1) as H2.
  set (s2 := updateDisplay (saveProgressToStorage now s)) in *.
  assert (S2 : Settled s2) by exact (Settled_sameProgress _ _ H2 S1).
  assert (H3 : sameProgress (loadProgress s2) s2).
  { destruct (updateDisplay_fields (saveProgressToStorage now s))
      as (F1 & F2 & F3 & F4).
    apply (load_saved now s); [exact F4 | | |]; symmetry; assumption. }
  assert (S3 : Settled (loadProgress s2))
    by exact (Settled_sameProgress _ _ H3 S2).
  pose proof (updateDisplay_sameProgress _ S3) as H4.
  exact (sameProgress_trans _ _ _ H4
           (sameProgress_trans _ _ _ H3 (sameProgress_trans _ _ _ H2 H1))).
Qed.

(** ** Saving, then loading into a new component *)

Lemma handle_keeps_video (d : Q) (e : Event) (s : State) :
  (exists video, videoRef s = Some video) ->
  exists video, videoRef (handle d e s) = Some video.
Proof.
  intros [video Hv]. destruct e; cbn [handle].
  - unfold handlePlay. change (videoRef (setIsPlaying true s)) with (videoRef s).
    rewrite Hv. now exists video.
  - unfold handlePause. rewrite recordWatchedSegment_videoRef. now exists video.
  - unfold handleSeeked. rewrite recordWatchedSegment_videoRef, Hv.
    destruct (negb (paused video)); fields;
      rewrite recordWatchedSegment_videoRef; now exists video.
  - unfold handleTimeUpdate. rewrite Hv. fields.
    destruct (gtb _ 2); [|now exists video].
    destruct (negb (paused video)); fields;
      rewrite recordWatchedSegment_videoRef; now exists video.
  - unfold handleEnded. rewrite recordWatchedSegment_videoRef. now exists video.
  - unfold handleLoadedMetadata. rewrite Hv. now exists video.
  - destruct s as [l pr u tot ses pl cws lp r v item]. fields. subst v.
    unfold loadProgress, resumePosition. fields.
    destruct item as [| |data]; fields; try (now exists video).
    destruct (ProgressData.lastPosition data) as [p|]; fields;
      [|now exists video].
    destruct (truthy p && negb r); fields; eexists; reflexivity.
  - now exists video.
  - destruct s as [l pr u tot ses pl cws lp r v item]. fields. subst v.
    unfold resetProgress. fields. eexists; reflexivity.
  - rewrite Hv. eexists; reflexivity.
  - eexists; reflexivity.
Qed.

Lemma reachable_video (d : Q) (s : State) :
  reachable d s -> exists video, videoRef s = Some video.
Proof.
  induction 1 as [|s e Hr IH Ha].
  - eexists; reflexivity.
  - unfold dispatch.
    destruct (updateDisplay_fields (handle d e s)) as (_ & _ & -> & _).
    now apply handle_keeps_video.
Qed.

Lemma remount_after_save_state (d : Q) (now : Z) (s : State) :
  dispatch d Remount (dispatch d (SaveProgress now) s)
  = withItem (progressData now s) (mount (freshVideo d) NoItem).
Proof.
  unfold dispatch. cbn [handle].
  destruct (updateDisplay_fields (saveProgressToStorage now s))
    as (_ & _ & _ & ->).
  reflexivity.
Qed.

Lemma updateDisplay_total (s : State) :
  totalDuration (updateDisplay s) = totalDuration s.
Proof.
  unfold updateDisplay.
  destruct (gtb (totalDuration (setUniqueWatchedTime _ s)) 0); reflexivity.
Qed.

Lemma updateDisplay_idle (s : State) :
  totalDuration s = 0 -> currentProgress (updateDisplay s) = currentProgress s.
Proof.
  destruct s as [l pr u tot ses pl cws lp r v item]. fields. intros ->.
  reflexivity.
Qed.

Lemma updateDisplay_progress (s : State) :
  0 < totalDuration s ->
  currentProgress (updateDisplay s)
  = calculateUniqueTime (watchedIntervals s) / totalDuration s * 100.
Proof.
  destruct s as [l pr u tot ses pl cws lp r v item]. fields. intros H.
  unfold updateDisplay. fields. apply gtb_true in H. rewrite H. reflexivity.
Qed.

Lemma resumePosition_fresh (d : Q) (now : Z) (s : State) (video : Video) :
  videoRef s = Some video ->
  resumePosition (mount (freshVideo d) NoItem) (progressData now s)
  = if truthy (currentTime video) then Some (currentTime video) else None.
Proof.
  intros Hv. unfold resumePosition, progressData.
  cbn [videoRef hasResumed mount ProgressData.lastPosition]. rewrite Hv.
  rewrite truthy_orZero. cbn [negb]. rewrite andb_true_r.
  destruct (truthy (currentTime video)) eqn:E;
    [rewrite (orZero_truthy _ E)|]; reflexivity.
Qed.

Lemma reloaded_video (d : Q) (now : Z) (s : State) (video : Video) :
  videoRef s = Some video ->
  exists video',
    videoRef (reloaded d now s) = Some video' /\
    duration video' = d /\
    currentTime video' == currentTime video.
Proof.
  intros Hv. unfold reloaded. rewrite remount_after_save_state.
  unfold dispatch. cbn [handle].
  destruct (updateDisplay_fields
              (loadProgress (withItem (progressData now s)
                               (mount (freshVideo d) NoItem))))
    as (_ & _ & -> & _).
  pose proof (loadProgress_resume (mount (freshVideo d) NoItem)
                (progressData now s)) as L.
  rewrite (resumePosition_fresh d now s video Hv) in L.
  destruct (truthy (currentTime video)) eqn:E.
  - exists (seekTo (currentTime video) (freshVideo d)).
    split; [exact (proj1 L)|]. split; reflexivity.
  - exists (freshVideo d). apply truthy_false in E.
    split; [exact (proj1 L)|]. split; [reflexivity|].
    fields. now rewrite E.
Qed.

Lemma reloaded_fields (d : Q) (now : Z) (s : State) :
  watchedIntervals (reloaded d now s) = watchedIntervals s /\
  sessionWatchedTime (reloaded d now s) == sessionWatchedTime s /\
  totalDuration (reloaded d now s) = 0 /\
  currentProgress (reloaded d now s) = 0.
Proof.
  unfold reloaded. rewrite remount_after_save_state.
  unfold dispatch. cbn [handle].
  set (f := mount (freshVideo d) NoItem).
  set (data := progressData now s).
  rewrite (updateDisplay_total (loadProgress (withItem data f))).
  destruct (updateDisplay_fields (loadProgress (withItem data f)))
    as (-> & -> & _ & _).
  destruct (loadProgress_untouched f data) as (Ht & Hp & _).
  rewrite (updateDisplay_idle _ Ht), Ht, Hp.
  rewrite (loadProgress_intervals f data), (loadProgress_sessionTime f data).
  repeat split; try reflexivity. apply orZero_eq.
Qed.

(** C5, as the code has it.  In every reachable state, saving stores a
    record of the state's intervals, position, total duration, session time
    and progress.  A component mounted afterwards that loads this record has
    the saved intervals, the saved session time and the player at the saved
    position; it does not have the saved total duration or progress, which
    [loadProgress] does not read: both are 0 after the load.  They come with
    the next metadata event, the duration from the video and the progress
    from the display effect, and then the progress is the saved one if the
    saved state knew the duration. *)
Theorem C5_reload_restores_what_load_reads (d : Q) (now : Z) (s : State) :
  0 < d -> reachable d s ->
  (exists data,
      sessionStorage (dispatch d (SaveProgress now) s) = Item data /\
      records data s) /\
  watchedIntervals (reloaded d now s) = watchedIntervals s /\
  sessionWatchedTime (reloaded d now s) == sessionWatchedTime s /\
  samePosition (reloaded d now s) s /\
  totalDuration (reloaded d now s) = 0 /\
  currentProgress (reloaded d now s) = 0 /\
  totalDuration (dispatch d LoadedMetadata (reloaded d now s)) = d /\
  currentProgress (dispatch d LoadedMetadata (reloaded d now s))
    == calculateUniqueTime (watchedIntervals s) / d * 100 /\
  (totalDuration s = d ->
   currentProgress (dispatch d LoadedMetadata (reloaded d now s))
     == currentProgress s).
Proof.
  intros Hd Hr. destruct (reachable_Engine d Hd s Hr) as [_ Hs].
  destruct (reachable_video d s Hr) as [video Hv].
  destruct (reloaded_fields d now s) as (Hi & Hses & Ht & Hp).
  destruct (reloaded_video d now s video Hv) as (video' & Hv' & Hdur & Hct).
  assert (Hmeta : handleLoadedMetadata (reloaded d now s)
                  = setTotalDuration d (reloaded d now s)).
  { unfold handleLoadedMetadata. now rewrite Hv', Hdur. }
  assert (Htot : totalDuration (dispatch d LoadedMetadata (reloaded d now s)) = d).
  { unfold dispatch. cbn [handle]. rewrite Hmeta.
    now rewrite updateDisplay_total. }
  assert (Hprog : currentProgress (dispatch d LoadedMetadata (reloaded d now s))
                  == calculateUniqueTime (watchedIntervals s) / d * 100).
  { unfold dispatch. cbn [handle]. rewrite Hmeta.
    rewrite updateDisplay_progress by exact Hd.
    change (watchedIntervals (setTotalDuration d (reloaded d now s)))
      with (watchedIntervals (reloaded d now s)).
    rewrite Hi. reflexivity. }
  split; [|repeat split; try assumption].
  - exists (progressData now s). split; [|apply progressData_records].
    unfold dispatch. cbn [handle].
    destruct (updateDisplay_fields (saveProgressToStorage now s))
      as (_ & _ & _ & ->). reflexivity.
  - unfold samePosition, position. now rewrite Hv', Hv.
  - intros E. rewrite Hprog. symmetry.
    assert (Hpos : 0 < totalDuration s) by (rewrite E; exact Hd).
    pose proof (Hs Hpos) as H. rewrite E in H. exact H.
Qed.

(** C5 at scenario E: saved, mounted again and loaded. *)
Lemma C5_reload_restores_what_load_reads_witness :
  watchedIntervals (reloaded 100 0 scenarioE) = [mkInterval 0 37] /\
  sessionWatchedTime (reloaded 100 0 scenarioE) == 37 /\
  totalDuration (reloaded 100 0 scenarioE) = 0 /\
  currentProgress (reloaded 100 0 scenarioE) = 0.
Proof.
  destruct (C5_reload_restores_what_load_reads 100 0 scenarioE
              eq_refl scenarioE_reachable)
    as (_ & H1 & H2 & _ & H3 & H4 & _).
  split; [exact H1|]. split; [rewrite H2; reflexivity|].
  split; [exact H3 | exact H4].
Defined.

Lemma reloaded_reachable (d : Q) (now : Z) (s : State) :
  reachable d s -> reachable d (reloaded d now s).
Proof.
  intros Hr. unfold reloaded. repeat apply reachable_step; try exact I.
  exact Hr.
Qed.

(** The claim of C5 fails where a load matters, in a component that does not
    hold the values already.  Scenario E is saved with a total duration of
    100 and a progress of 37; the component mounted afterwards, in a state
    that is reachable too, loads the record and has a total duration of 0 and
    a progress of 0. *)
Lemma C5_round_trip_counterexample :
  reachable 100 scenarioE /\
  reachable 100 (reloaded 100 0 scenarioE) /\
  totalDuration scenarioE = 100 /\
  totalDuration (reloaded 100 0 scenarioE) = 0 /\
  currentProgress scenarioE == 37 /\
  currentProgress (reloaded 100 0 scenarioE) == 0 /\
  ~ sameProgress (reloaded 100 0 scenarioE) scenarioE.
Proof.
  split; [exact scenarioE_reachable|].
  split; [exact (reloaded_reachable 100 0 scenarioE scenarioE_reachable)|].
  split; [reflexivity|]. split; [reflexivity|].
  split; [reflexivity|]. split; [reflexivity|].
  intros (_ & _ & H & _). vm_compute in H. discriminate H.
Qed.

(** What [loadProgress] does not bring back.  The page is loaded again after
    scenario E was saved: the mounted component loads intervals, session time
    and position from the record, while total duration and progress stay 0
    until the metadata event sets the duration and the display effect runs. *)
Example remount_after_save :
  let saved := dispatch 100 (SaveProgress 0) scenarioE in
  let loaded := dispatch 100 LoadProgress (dispatch 100 Remount saved) in
  watchedIntervals loaded = [mkInterval 0 37] /\
  position loaded = Some 37 /\
  sessionWatchedTime loaded == 37 /\
  totalDuration loaded = 0 /\
  currentProgress loaded = 0 /\
  totalDuration (dispatch 100 LoadedMetadata loaded) = 100 /\
  currentProgress (dispatch 100 LoadedMetadata loaded) == 37.
Proof. cbv zeta. repeat split; reflexivity. Qed.

(** ** The scenarios of the specification, run on the model *)

(** Scenario A: [[0,10)] then [[9,20)]. *)
Example scenarioA :
  merge [mkInterval 0 10] (mkInterval 9 20) = [mkInterval 0 20] /\
  calculateUniqueTime (merge [mkInterval 0 10] (mkInterval 9 20)) == 20.
Proof. split; reflexivity. Qed.

(** Scenario B: [[0,10)] then [[15,25)]. *)
Example scenarioB :
  merge [mkInterval 0 10] (mkInterval 15 25)
    = [mkInterval 0 10; mkInterval 15 25] /\
  calculateUniqueTime (merge [mkInterval 0 10] (mkInterval 15 25)) == 20.
Proof. split; reflexivity. Qed.

(** Scenario C: play from 0 to 10, pause, move to 5, play to 8, pause. *)
Example scenarioC :
  let s :=
    fold_left (fun s e => dispatch 100 e s)
      [LoadedMetadata; Play; PlayerAt 10 false; Pause;
       PlayerAt 5 true; Play; PlayerAt 8 false; Pause]
      (mount (freshVideo 100) NoItem) in
  watchedIntervals s = [mkInterval 0 10] /\
  sessionWatchedTime s == 13 /\
  uniqueWatchedTime s == 10.
Proof. cbv zeta. repeat split; reflexivity. Qed.

(** Intervals given out of order, the second one within the tolerance of the
    third. *)
Example merge_out_of_order :
  mergeIntervals [mkInterval 15 25; mkInterval 30 40; mkInterval 0 (29#2)]
  = [mkInterval 0 25; mkInterval 30 40].
Proof. reflexivity. Qed.

(** * More of the component *)

(** ** [mergeIntervals] as a function on lists *)

Lemma sort_sorted_id (l : list Interval) :
  Sorted startLe l -> sort byStart l = l.
Proof.
  induction 1 as [|x l Hl IH Hhd]; [reflexivity|].
  change (sort byStart (x :: l)) with (insert byStart x (sort byStart l)).
  rewrite IH. now apply insert_front.
Qed.

Lemma mergeIntervals_cases (l : list Interval) :
  ((length l <= 1)%nat /\ mergeIntervals l = l) \/
  (exists first rest,
      (2 <= length l)%nat /\ sort byStart l = first :: rest /\
      mergeIntervals l = sweepFrom first rest).
Proof.
  destruct (le_lt_dec (length l) 1) as [Hlen|Hlen].
  - left. split; [exact Hlen|]. unfold mergeIntervals.
    apply Nat.leb_le in Hlen. now rewrite Hlen.
  - right. destruct (sort byStart l) as [|first rest] eqn:Hs.
    + pose proof (sort_length l) as Hl. rewrite Hs in Hl. simpl in Hl. lia.
    + exists first, rest. split; [exact Hlen|]. split; [reflexivity|].
      now apply mergeIntervals_sweep.
Qed.

Lemma mergeIntervals_CoverageSet_id (M : list Interval) :
  CoverageSet M -> mergeIntervals M = M.
Proof.
  intros HM. destruct (mergeIntervals_cases M)
    as [[_ H]|(first & rest & _ & Hs & ->)]; [exact H|].
  rewrite sort_sorted_id in Hs by now apply CoverageSet_startLe.
  subst M. now apply sweepFrom_gapped, CoverageSet_gapped.
Qed.

(** X1.  [mergeIntervals] leaves a coverage set as it is, so running it on its
    own result changes nothing: for every list, merged twice is merged
    once. *)
Theorem mergeIntervals_idempotent (l : list Interval) :
  mergeIntervals (mergeIntervals l) = mergeIntervals l /\
  (CoverageSet l -> mergeIntervals l = l).
Proof.
  split; [|apply mergeIntervals_CoverageSet_id].
  apply mergeIntervals_CoverageSet_id, mergeIntervals_CoverageSet.
Qed.

Lemma spans_refl (x : Interval) : spans x x.
Proof. unfold spans. split; lra. Qed.

Lemma mergeIntervals_spans (l : list Interval) (x : Interval) :
  In x l -> exists J, In J (mergeIntervals l) /\ spans J x.
Proof.
  intros Hx. destruct (mergeIntervals_cases l)
    as [[_ ->]|(first & rest & _ & Hs & ->)].
  - exists x. split; [exact Hx | apply spans_refl].
  - apply sweepFrom_spans.
    + rewrite <- Hs. apply sort_sorted.
    + rewrite <- Hs. now apply sort_In.
Qed.

Lemma sweepFrom_endpoints (rest : list Interval) :
  forall cur J, In J (sweepFrom cur rest) ->
  (start J = start cur \/ exists a, In a rest /\ start J = start a) /\
  (end_ J = end_ cur \/ exists b, In b rest /\ end_ J = end_ b).
Proof.
  induction rest as [|k r IH]; intros cur J HJ; simpl in HJ.
  - destruct HJ as [<-|[]]. auto.
  - destruct (Qle_bool (start k) (end_ cur + 1)).
    + destruct (IH _ J HJ) as [Hs He]. simpl in Hs, He. split.
      * destruct Hs as [Hs|(a & Ha & Hs)]; [now left|].
        right. exists a. split; [now right | exact Hs].
      * destruct He as [He|(b & Hb & He)].
        -- destruct (Math_max_cases (end_ cur) (end_ k)) as [[_ E]|[_ E]];
             rewrite E in He; [now left|].
           right. exists k. split; [now left | exact He].
        -- right. exists b. split; [now right | exact He].
    + destruct HJ as [<-|HJ]; [auto|].
      destruct (IH _ J HJ) as [Hs He]. split.
      * right. destruct Hs as [Hs|(a & Ha & Hs)].
        -- exists k. split; [now left | exact Hs].
        -- exists a. split; [now right | exact Hs].
      * right. destruct He as [He|(b & Hb & He)].
        -- exists k. split; [now left | exact He].
        -- exists b. split; [now right | exact He].
Qed.

Lemma mergeIntervals_endpoints (l : list Interval) (J : Interval) :
  In J (mergeIntervals l) ->
  exists a b, In a l /\ In b l /\ start J = start a /\ end_ J = end_ b.
Proof.
  intros HJ. destruct (mergeIntervals_cases l)
    as [[_ E]|(first & rest & _ & Hs & E)]; rewrite E in HJ.
  - exists J, J. auto.
  - assert (Hin : forall x, In x (first :: rest) -> In x l)
      by (intros x Hx; apply sort_In; now rewrite Hs).
    destruct (sweepFrom_endpoints rest first J HJ) as [H1 H2].
    assert (Ha : exists a, In a l /\ start J = start a).
    { destruct H1 as [H1|(a & Ha & H1)].
      - exists first. split; [apply Hin; now left | exact H1].
      - exists a. split; [apply Hin; now right | exact H1]. }
    assert (Hb : exists b, In b l /\ end_ J = end_ b).
    { destruct H2 as [H2|(b & Hb & H2)].
      - exists first. split; [apply Hin; now left | exact H2].
      - exists b. split; [apply Hin; now right | exact H2]. }
    destruct Ha as (a & Ha & Hsa), Hb as (b & Hb & Heb).
    exists a, b. auto.
Qed.

(** X2.  Nothing watched is lost and nothing is made up: every interval
    given to [mergeIntervals] lies inside an interval of the result, and every
    interval of the result starts where a given interval starts and ends where
    a given interval ends. *)
Theorem mergeIntervals_keeps_coverage (l : list Interval) :
  (forall x, In x l ->
     exists J, In J (mergeIntervals l) /\
               start J <= start x /\ end_ x <= end_ J) /\
  (forall J, In J (mergeIntervals l) ->
     exists a b, In a l /\ In b l /\ start J = start a /\ end_ J = end_ b).
Proof.
  split.
  - intros x Hx. exact (mergeIntervals_spans l x Hx).
  - intros J HJ. exact (mergeIntervals_endpoints l J HJ).
Qed.

Lemma sweepFrom_length (rest : list Interval) :
  forall cur, (1 <= length (sweepFrom cur rest) <= S (length rest))%nat.
Proof.
  induction rest as [|k r IH]; intros cur; simpl; [lia|].
  destruct (Qle_bool (start k) (end_ cur + 1)).
  - specialize (IH (setEnd cur (Math_max (end_ cur) (end_ k)))). lia.
  - specialize (IH k). simpl. lia.
Qed.

Lemma sweepFrom_wellFormed (rest : list Interval) :
  forall cur, wellFormed cur -> Forall wellFormed rest ->
              Forall wellFormed (sweepFrom cur rest).
Proof.
  induction rest as [|k r IH]; intros cur Hc Hr; simpl.
  - now constructor.
  - inversion Hr as [|? ? Hk Hr']; subst.
    destruct (Qle_bool (start k) (end_ cur + 1)).
    + apply IH; [|exact Hr']. unfold wellFormed in *. simpl.
      pose proof (Math_max_ge_l (end_ cur) (end_ k)). lra.
    + constructor; [exact Hc | now apply IH].
Qed.

Lemma mergeIntervals_length (l : list Interval) :
  (length (mergeIntervals l) <= length l)%nat /\
  (l <> [] -> mergeIntervals l <> []).
Proof.
  destruct (mergeIntervals_cases l)
    as [[_ ->]|(first & rest & Hlen & Hs & ->)]; [auto|].
  pose proof (sweepFrom_length rest first) as H.
  pose proof (sort_length l) as Hl. rewrite Hs in Hl. simpl in Hl.
  split; [lia|]. intros _ E. rewrite E in H. simpl in H. lia.
Qed.

Lemma mergeIntervals_wellFormed (l : list Interval) :
  Forall wellFormed l -> Forall wellFormed (mergeIntervals l).
Proof.
  intros H. destruct (mergeIntervals_cases l)
    as [[_ ->]|(first & rest & _ & Hs & ->)]; [exact H|].
  apply (sort_Forall _ _) in H. rewrite Hs in H.
  inversion H; subst. now apply sweepFrom_wellFormed.
Qed.

(** X3.  [mergeIntervals] never returns more intervals than it was given,
    returns an empty list only for an empty list, and, given intervals with
    [start <= end], returns intervals with [start <= end]. *)
Theorem mergeIntervals_size_and_shape (l : list Interval) :
  (length (mergeIntervals l) <= length l)%nat /\
  (mergeIntervals l = [] <-> l = []) /\
  (Forall wellFormed l -> Forall wellFormed (mergeIntervals l)).
Proof.
  destruct (mergeIntervals_length l) as [H1 H2].
  split; [exact H1|]. split; [|apply mergeIntervals_wellFormed].
  split.
  - intros E. destruct l as [|x l]; [reflexivity|].
    exfalso. apply H2; [discriminate | exact E].
  - intros ->. reflexivity.
Qed.

(** ** Merging never takes unique time away *)

(** While the loop runs from [cur], everything of the gapped list [rest] that
    starts at or after [e0], a point inside [cur], is counted on top of the
    stretch from the start of [cur] to [e0]. *)
Lemma sweepFrom_lower (rest : list Interval) :
  Sorted gapped rest -> Forall wellFormed rest ->
  forall cur e0,
    e0 <= end_ cur ->
    (forall k r, rest = k :: r -> e0 <= start k) ->
    (e0 - start cur) + calculateUniqueTime rest
    <= calculateUniqueTime (sweepFrom cur rest).
Proof.
  induction rest as [|k r IH]; intros Hg Hw cur e0 He Hk.
  - simpl. rewrite uniqueTime_cons, uniqueTime_nil. unfold lengthOf. lra.
  - assert (Hwk : wellFormed k) by now inversion Hw.
    assert (Hwr : Forall wellFormed r) by now inversion Hw.
    assert (Hgr : Sorted gapped r) by now inversion Hg.
    assert (Hnext : forall k' r', r = k' :: r' -> end_ k <= start k').
    { intros k' r' ->. apply sorted_inv in Hg. unfold gapped in Hg. lra. }
    specialize (Hk k r eq_refl). unfold wellFormed in Hwk.
    rewrite (uniqueTime_cons k r). unfold lengthOf. simpl.
    destruct (Qle_bool (start k) (end_ cur + 1)).
    + specialize (IH Hgr Hwr (setEnd cur (Math_max (end_ cur) (end_ k)))
                    (end_ k) (Math_max_ge_r _ _) Hnext).
      simpl in IH. lra.
    + specialize (IH Hgr Hwr k (end_ k) ltac:(lra) Hnext).
      rewrite uniqueTime_cons. unfold lengthOf. lra.
Qed.

Lemma sweepFrom_place_lower (I : Interval) (S : list Interval) :
  wellFormed I -> Forall wellFormed S ->
  forall cur, Sorted gapped (cur :: S) ->
    lengthOf cur + calculateUniqueTime S
    <= calculateUniqueTime (sweepFrom cur (place I S)).
Proof.
  intros HI. induction S as [|k r IH]; intros Hw cur Hg.
  - unfold wellFormed in HI. simpl.
    destruct (Qle_bool (start I) (end_ cur + 1)).
    + rewrite uniqueTime_cons, uniqueTime_nil. unfold lengthOf. simpl.
      pose proof (Math_max_ge_l (end_ cur) (end_ I)). lra.
    + rewrite !uniqueTime_cons, uniqueTime_nil. unfold lengthOf. lra.
  - assert (Hwr : Forall wellFormed r) by now inversion Hw.
    destruct (sorted_inv _ _ _ _ Hg) as [Hck Hgk]. unfold gapped in Hck.
    destruct (place_cases I k r) as [[_ ->]|[Hlt ->]].
    + simpl. assert (E : Qle_bool (start k) (end_ cur + 1) = false)
        by (apply Qle_bool_false; lra).
      rewrite E. specialize (IH Hwr k Hgk). rewrite !uniqueTime_cons. lra.
    + change (sweepFrom cur (I :: k :: r))
        with (if Qle_bool (start I) (end_ cur + 1)
              then sweepFrom (setEnd cur (Math_max (end_ cur) (end_ I))) (k :: r)
              else cur :: sweepFrom I (k :: r)).
      destruct (Qle_bool (start I) (end_ cur + 1)).
      * pose proof (sweepFrom_lower (k :: r) Hgk Hw
                      (setEnd cur (Math_max (end_ cur) (end_ I))) (end_ cur)
                      (Math_max_ge_l _ _)) as H.
        cbn [start setEnd] in H. unfold lengthOf.
        assert (Hk : forall k0 r0, k :: r = k0 :: r0 -> end_ cur <= start k0)
          by (intros k0 r0 E; injection E as <- _; lra).
        specialize (H Hk). lra.
      * pose proof (sweepFrom_lower (k :: r) Hgk Hw I (start I) HI) as H.
        assert (Hk : forall k0 r0, k :: r = k0 :: r0 -> start I <= start k0)
          by (intros k0 r0 E; injection E as <- _; lra).
        specialize (H Hk). rewrite (uniqueTime_cons cur). lra.
Qed.

Lemma merge_lower (S : list Interval) (I : Interval) :
  CoverageSet S -> Forall wellFormed S -> wellFormed I ->
  calculateUniqueTime S <= calculateUniqueTime (merge S I).
Proof.
  intros HS Hw HI. destruct S as [|a S'].
  - change (merge [] I) with [I].
    rewrite uniqueTime_cons, !uniqueTime_nil. unfold wellFormed, lengthOf in *. lra.
  - destruct (merge_place a S' I (CoverageSet_startLe _ HS))
      as (first & rest & Hp & ->).
    destruct (place_cases I a S') as [[_ Heq]|[Hlt Heq]];
      rewrite Heq in Hp; injection Hp as <- <-.
    + pose proof (sweepFrom_place_lower I S' HI
                    ltac:(now inversion Hw) a (CoverageSet_gapped _ HS)).
      rewrite uniqueTime_cons. lra.
    + pose proof (sweepFrom_lower (a :: S') (CoverageSet_gapped _ HS) Hw
                    I (start I) HI) as H.
      assert (Hk : forall k0 r0, a :: S' = k0 :: r0 -> start I <= start k0)
        by (intros k0 r0 E; injection E as <- _; lra).
      specialize (H Hk). lra.
Qed.

Lemma uniqueTime_nonneg (l : list Interval) :
  Forall wellFormed l -> 0 <= calculateUniqueTime l.
Proof.
  induction 1 as [|x l Hx Hl IH]; [rewrite uniqueTime_nil; lra|].
  rewrite uniqueTime_cons. unfold wellFormed, lengthOf in *. lra.
Qed.

Lemma uniqueTime_member (l : list Interval) (J : Interval) :
  Forall wellFormed l -> In J l -> lengthOf J <= calculateUniqueTime l.
Proof.
  induction 1 as [|x l Hx Hl IH]; intros HJ; [destruct HJ|].
  rewrite uniqueTime_cons. pose proof (uniqueTime_nonneg l Hl) as H0.
  destruct HJ as [<-|HJ]; [lra|]. specialize (IH HJ).
  unfold wellFormed, lengthOf in *. lra.
Qed.

Lemma merge_wellFormed (S : list Interval) (I : Interval) :
  Forall wellFormed S -> wellFormed I -> Forall wellFormed (merge S I).
Proof.
  intros HS HI. apply mergeIntervals_wellFormed, Forall_app.
  split; [exact HS | now constructor].
Qed.

(** X4.  Merging never takes unique time away: for a coverage set [S] of
    intervals with [start <= end] and an interval [I] with [start <= end], the
    unique time after merging [I] is at least the unique time of [S], and at
    least the length of [I]. *)
Theorem merge_never_loses_time (S : list Interval) (I : Interval) :
  CoverageSet S -> Forall wellFormed S -> wellFormed I ->
  calculateUniqueTime S <= calculateUniqueTime (merge S I) /\
  end_ I - start I <= calculateUniqueTime (merge S I).
Proof.
  intros HS Hw HI. split; [exact (merge_lower S I HS Hw HI)|].
  destruct (merge_spans S I) as (J & HJ & Hs & He).
  pose proof (uniqueTime_member _ J (merge_wellFormed S I Hw HI) HJ) as H.
  unfold lengthOf in H. lra.
Qed.

(** X4 where the new interval reaches over a covered one: [[0,10)] and
    [[12.5,20)] covered, [[5,30)] merged. *)
Lemma merge_never_loses_time_witness :
  calculateUniqueTime [mkInterval 0 10; mkInterval (25#2) 20]
  <= calculateUniqueTime
       (merge [mkInterval 0 10; mkInterval (25#2) 20] (mkInterval 5 30)).
Proof.
  refine (proj1 (merge_never_loses_time
                   [mkInterval 0 10; mkInterval (25#2) 20]
                   (mkInterval 5 30) _ _ _)).
  - repeat constructor; simpl; lra.
  - repeat constructor; unfold wellFormed; simpl; lra.
  - unfold wellFormed; simpl; lra.
Defined.

(** ** The player handlers, one after another *)

Lemma handlePlay_opens (s : State) (video : Video) :
  videoRef s = Some video ->
  handlePlay s
  = setCurrentWatchStart (Some (currentTime video)) (setIsPlaying true s).
Proof.
  intros Hv. unfold handlePlay.
  change (videoRef (setIsPlaying true s)) with (videoRef s). now rewrite Hv.
Qed.

(** X5.  Play at one position, pause at another.  When the player has moved
    on by at least 0.5 seconds the span between the two positions is merged
    into the watched intervals and its length is added to the session time;
    when it has moved by less, or backwards, nothing is recorded.  Either way
    the component ends up not playing, with no segment open. *)
Theorem play_then_pause (s : State) (video : Video) (t : Q) (isPaused : bool) :
  videoRef s = Some video ->
  (1#2 <= t - currentTime video ->
   watchedIntervals (handlePause (playerAt t isPaused (handlePlay s)))
     = merge (watchedIntervals s) (mkInterval (currentTime video) t) /\
   sessionWatchedTime (handlePause (playerAt t isPaused (handlePlay s)))
     = sessionWatchedTime s + (t - currentTime video)) /\
  (t - currentTime video < 1#2 ->
   watchedIntervals (handlePause (playerAt t isPaused (handlePlay s)))
     = watchedIntervals s /\
   sessionWatchedTime (handlePause (playerAt t isPaused (handlePlay s)))
     = sessionWatchedTime s) /\
  isPlaying (handlePause (playerAt t isPaused (handlePlay s))) = false /\
  currentWatchStart (handlePause (playerAt t isPaused (handlePlay s))) = None.
Proof.
  intros Hv. rewrite (handlePlay_opens s video Hv).
  unfold playerAt. fields. rewrite Hv. unfold handlePause.
  set (s1 := setIsPlaying false _).
  set (video1 := mkVideo t isPaused (duration video)).
  assert (Hs : currentWatchStart s1 = Some (currentTime video)) by reflexivity.
  assert (Hv1 : videoRef s1 = Some video1) by reflexivity.
  split; [|split; [|split]].
  - intros Hlen. exact (recordWatchedSegment_long s1 _ video1 Hs Hv1 Hlen).
  - intros Hlen. rewrite (recordWatchedSegment_short s1 _ video1 Hs Hv1 Hlen).
    split; reflexivity.
  - destruct (Qlt_le_dec (t - currentTime video) (1#2)) as [Hlen|Hlen].
    + rewrite (recordWatchedSegment_short s1 _ video1 Hs Hv1 Hlen). reflexivity.
    + unfold recordWatchedSegment. rewrite Hs, Hv1.
      destruct (gtb _ _ && geb _ _); reflexivity.
  - reflexivity.
Qed.

(** Scenario C, first half: play at 0, pause at 10. *)
Lemma play_then_pause_witness :
  watchedIntervals
    (handlePause (playerAt 10 true
                    (handlePlay (mount (mkVideo 0 false 100) NoItem))))
  = [mkInterval 0 10].
Proof.
  refine (proj1 (proj1 (play_then_pause (mount (mkVideo 0 false 100) NoItem)
                          (mkVideo 0 false 100) 10 true eq_refl) _)).
  simpl. lra.
Defined.

Lemma setCurrentWatchStart_same (s : State) :
  setCurrentWatchStart (currentWatchStart s) s = s.
Proof. now destruct s. Qed.

Lemma recordWatchedSegment_idle (s : State) :
  currentWatchStart s = None -> recordWatchedSegment s = s.
Proof.
  intros H. unfold recordWatchedSegment. rewrite H.
  rewrite <- H. apply setCurrentWatchStart_same.
Qed.

(** X6.  Closing twice closes once: with no segment open
    [recordWatchedSegment] changes nothing, so a second close right after a
    first one, as when the player fires [pause] and then [ended] at the end of
    the video, records nothing more. *)
Theorem close_twice_is_close_once (s : State) :
  recordWatchedSegment (recordWatchedSegment s) = recordWatchedSegment s /\
  handleEnded (handlePause s) = handlePause s /\
  (currentWatchStart s = None -> handlePause s = setIsPlaying false s).
Proof.
  split; [|split].
  - apply recordWatchedSegment_idle. reflexivity.
  - unfold handleEnded, handlePause.
    set (s1 := recordWatchedSegment (setIsPlaying false s)).
    assert (E : setIsPlaying false s1 = s1).
    { unfold s1. destruct s as [? ? ? ? ? ? cws ? ? v ?].
      unfold recordWatchedSegment. fields.
      destruct cws, v; try reflexivity.
      destruct (gtb _ _ && geb _ _); reflexivity. }
    rewrite E. apply recordWatchedSegment_idle. reflexivity.
  - intros H. unfold handlePause. now apply recordWatchedSegment_idle.
Qed.

Lemma Math_abs_zero (x : Q) : Math_abs (x - x) <= 2.
Proof.
  unfold Math_abs. destruct (Qle_bool 0 (x - x)); lra.
Qed.

Lemma setLastPosition_same (s : State) :
  setLastPosition (lastPosition s) s = s.
Proof. now destruct s. Qed.

Lemma handleTimeUpdate_steady (s : State) (video : Video) :
  videoRef s = Some video ->
  Math_abs (currentTime video - lastPosition s) <= 2 ->
  handleTimeUpdate s = setLastPosition (currentTime video) s.
Proof.
  intros Hv Hd. unfold handleTimeUpdate. rewrite Hv.
  apply gtb_false in Hd. now rewrite Hd.
Qed.

Lemma handleTimeUpdate_videoRef (s : State) :
  videoRef (handleTimeUpdate s) = videoRef s.
Proof.
  unfold handleTimeUpdate. destruct (videoRef s) as [video|] eqn:Hv;
    [|exact Hv].
  destruct (gtb _ 2); [|exact Hv].
  destruct (negb (paused video)); fields;
    now rewrite recordWatchedSegment_videoRef.
Qed.

Lemma handleTimeUpdate_lastPosition (s : State) (video : Video) :
  videoRef s = Some video ->
  lastPosition (handleTimeUpdate s) = currentTime video.
Proof.
  intros Hv. unfold handleTimeUpdate. rewrite Hv. reflexivity.
Qed.

(** X7.  A time update that sees the player within 2 seconds of the last
    position only moves the last position; and a second time update at the
    same player position changes nothing, whatever the first one did. *)
Theorem time_update_without_jump (s : State) :
  (forall video,
      videoRef s = Some video ->
      Math_abs (currentTime video - lastPosition s) <= 2 ->
      handleTimeUpdate s = setLastPosition (currentTime video) s) /\
  handleTimeUpdate (handleTimeUpdate s) = handleTimeUpdate s.
Proof.
  split; [intros video; apply handleTimeUpdate_steady|].
  destruct (videoRef s) as [video|] eqn:Hv.
  - pose proof (handleTimeUpdate_videoRef s) as Hv1. rewrite Hv in Hv1.
    pose proof (handleTimeUpdate_lastPosition s video Hv) as Hl.
    rewrite (handleTimeUpdate_steady (handleTimeUpdate s) video Hv1).
    + rewrite <- Hl. apply setLastPosition_same.
    + rewrite Hl. apply Math_abs_zero.
  - assert (E : handleTimeUpdate s = s)
      by (unfold handleTimeUpdate; now rewrite Hv).
    now rewrite !E.
Qed.

Lemma handleSeeked_fresh (s : State) (video : Video) :
  videoRef s = Some video ->
  currentWatchStart s
    = (if paused video then None else Some (currentTime video)) ->
  handleSeeked s = s.
Proof.
  destruct s as [l pr u tot ses pl cws lp r v item]. fields.
  intros -> ->. unfold handleSeeked, recordWatchedSegment. fields.
  destruct (paused video) eqn:Hp; fields.
  - rewrite Hp. reflexivity.
  - assert (E : gtb (currentTime video) (currentTime video) = false)
      by (apply gtb_false; lra).
    rewrite E. cbn [andb]. fields. rewrite Hp. reflexivity.
Qed.

(** X8.  After a time update that saw a jump, the [seeked] event of the same
    jump changes nothing: the segment that the time update opened at the new
    position has no length yet, so closing and opening it again leaves the
    state as it is. *)
Theorem seeked_after_jump_changes_nothing (s : State) (video : Video) :
  videoRef s = Some video ->
  2 < Math_abs (currentTime video - lastPosition s) ->
  handleSeeked (handleTimeUpdate s) = handleTimeUpdate s.
Proof.
  intros Hv Hj. apply (handleSeeked_fresh _ video).
  - now rewrite handleTimeUpdate_videoRef.
  - rewrite (handleTimeUpdate_jump s video Hv Hj).
    destruct (paused video); reflexivity.
Qed.

Lemma seeked_after_jump_changes_nothing_witness :
  handleSeeked (handleTimeUpdate jumpForward) = handleTimeUpdate jumpForward.
Proof.
  refine (seeked_after_jump_changes_nothing jumpForward
            (mkVideo 100 false 120) eq_refl _).
  reflexivity.
Defined.

(** X9.  [handleSeeked] closes the open segment at the video's current time,
    the position the player has arrived at: a segment open from [start0] with
    the player now at least 0.5 seconds further is recorded up to there.  A
    new segment is opened at the current time exactly when the video is not
    paused. *)
Theorem seeked_closes_at_current_time (s : State) (video : Video) (start0 : Q) :
  videoRef s = Some video -> currentWatchStart s = Some start0 ->
  (1#2 <= currentTime video - start0 ->
   watchedIntervals (handleSeeked s)
     = merge (watchedIntervals s) (mkInterval start0 (currentTime video)) /\
   sessionWatchedTime (handleSeeked s)
     = sessionWatchedTime s + (currentTime video - start0)) /\
  (currentTime video - start0 < 1#2 ->
   watchedIntervals (handleSeeked s) = watchedIntervals s /\
   sessionWatchedTime (handleSeeked s) = sessionWatchedTime s) /\
  currentWatchStart (handleSeeked s)
    = (if paused video then None else Some (currentTime video)).
Proof.
  intros Hv Hs. unfold handleSeeked.
  rewrite (recordWatchedSegment_videoRef s), Hv.
  split; [|split].
  - intros Hlen.
    destruct (recordWatchedSegment_long s start0 video Hs Hv Hlen) as [H1 H2].
    destruct (paused video); cbn [negb]; split; assumption.
  - intros Hlen. rewrite (recordWatchedSegment_short s start0 video Hs Hv Hlen).
    destruct (paused video); split; reflexivity.
  - destruct (paused video); reflexivity.
Qed.

(** A player that was playing from 0 is dragged to 100: the [seeked] event,
    on its own, records all of [[0,100)]. *)
Lemma seeked_closes_at_current_time_witness :
  watchedIntervals (handleSeeked jumpForward) = [mkInterval 0 100].
Proof.
  refine (proj1 (proj1 (seeked_closes_at_current_time jumpForward
                          (mkVideo 100 false 120) 0 eq_refl eq_refl) _)).
  simpl. lra.
Defined.

(** ** Loading twice, and loading after a reset *)

(** X10.  The component calls [loadProgress] on mount and again after the
    metadata event.  With the same item stored, the second call changes
    nothing: intervals and session time are set to the same values, and the
    player is not moved again, because the first call either set the resumed
    flag or found nothing to resume from. *)
Theorem loadProgress_twice (s : State) :
  loadProgress (loadProgress s) = loadProgress s.
Proof.
  destruct s as [l pr u tot ses pl cws lp r v item].
  destruct item as [| |data]; try reflexivity.
  destruct data as [i p t st ts pp].
  unfold loadProgress, resumePosition. fields.
  cbn [ProgressData.intervals ProgressData.lastPosition
       ProgressData.sessionTime].
  destruct v as [video|], p as [p|]; fields; try reflexivity.
  destruct (truthy p) eqn:Et, r; cbn [andb negb]; fields;
    cbn [ProgressData.intervals ProgressData.lastPosition
         ProgressData.sessionTime];
    rewrite ?Et; cbn [andb negb]; fields; reflexivity.
Qed.

(** X11.  After [resetProgress] nothing comes back.  A load finds no item and
    leaves the reset state as it is; and if the save timer fires first, the
    item it writes holds no intervals, no session time and position 0, so a
    load of that item leaves the state as it is too and does not move the
    player. *)
Theorem nothing_comes_back_after_reset (s : State) (now : Z) :
  loadProgress (resetProgress s) = resetProgress s /\
  loadProgress (saveProgressToStorage now (resetProgress s))
    = saveProgressToStorage now (resetProgress s) /\
  watchedIntervals (resetProgress s) = [] /\
  sessionWatchedTime (resetProgress s) = 0 /\
  currentWatchStart (resetProgress s) = None /\
  hasResumed (resetProgress s) = false.
Proof.
  destruct s as [l pr u tot ses pl cws lp r v item].
  destruct v as [video|];
    (split; [|split; [|split; [|split; [|split]]]]); cbv; reflexivity.
Qed.

(** ** What a session never loses *)

Lemma inside_wellFormed (d : Q) (l : list Interval) :
  Forall (inside d) l -> Forall wellFormed l.
Proof.
  apply Forall_impl. intros i (_ & H & _). exact H.
Qed.

Lemma recordWatchedSegment_grows (d : Q) (s : State) :
  Engine d s ->
  sessionWatchedTime s <= sessionWatchedTime (recordWatchedSegment s) /\
  calculateUniqueTime (watchedIntervals s)
  <= calculateUniqueTime (watchedIntervals (recordWatchedSegment s)) /\
  totalDuration (recordWatchedSegment s) = totalDuration s.
Proof.
  destruct s as [l pr u tot ses pl cws lp r v item].
  intros [[Hc Hi] _ _ _ _ _]. fields.
  unfold recordWatchedSegment. fields.
  destruct cws as [t|], v as [video|]; fields;
    try (repeat split; try reflexivity; lra).
  destruct (gtb (currentTime video) t && geb (currentTime video - t) (1#2)) eqn:E;
    fields; [|repeat split; try reflexivity; lra].
  apply andb_true_iff in E. destruct E as [E _]. apply gtb_true in E.
  split; [lra|]. split; [|reflexivity].
  apply merge_lower; [exact Hc | now apply inside_wellFormed with (d := d)|].
  unfold wellFormed. fields. lra.
Qed.

Lemma same_grows (s s' : State) :
  watchedIntervals s' = watchedIntervals s ->
  sessionWatchedTime s' = sessionWatchedTime s ->
  totalDuration s' = totalDuration s ->
  sessionWatchedTime s <= sessionWatchedTime s' /\
  calculateUniqueTime (watchedIntervals s)
  <= calculateUniqueTime (watchedIntervals s') /\
  totalDuration s' = totalDuration s.
Proof. intros -> -> ->. repeat split; try reflexivity; lra. Qed.

Lemma handleSeeked_fields (s : State) :
  watchedIntervals (handleSeeked s) = watchedIntervals (recordWatchedSegment s) /\
  sessionWatchedTime (handleSeeked s)
    = sessionWatchedTime (recordWatchedSegment s) /\
  totalDuration (handleSeeked s) = totalDuration (recordWatchedSegment s).
Proof.
  unfold handleSeeked.
  destruct (videoRef (recordWatchedSegment s)) as [video|];
    [destruct (negb (paused video))|]; repeat split; reflexivity.
Qed.

Lemma handleTimeUpdate_fields (s : State) :
  (watchedIntervals (handleTimeUpdate s) = watchedIntervals s /\
   sessionWatchedTime (handleTimeUpdate s) = sessionWatchedTime s /\
   totalDuration (handleTimeUpdate s) = totalDuration s) \/
  (watchedIntervals (handleTimeUpdate s)
     = watchedIntervals (recordWatchedSegment s) /\
   sessionWatchedTime (handleTimeUpdate s)
     = sessionWatchedTime (recordWatchedSegment s) /\
   totalDuration (handleTimeUpdate s)
     = totalDuration (recordWatchedSegment s)).
Proof.
  unfold handleTimeUpdate. destruct (videoRef s) as [video|]; [|left; auto].
  destruct (gtb _ 2); [right|left; auto].
  destruct (negb (paused video)); repeat split; reflexivity.
Qed.

Lemma quiet_handle_grows (d : Q) (e : Event) (s : State) :
  0 < d -> Engine d s -> quiet e ->
  sessionWatchedTime s <= sessionWatchedTime (handle d e s) /\
  calculateUniqueTime (watchedIntervals s)
  <= calculateUniqueTime (watchedIntervals (handle d e s)) /\
  (totalDuration (handle d e s) = totalDuration s \/
   totalDuration s = 0 /\ totalDuration (handle d e s) = d).
Proof.
  intros Hd He Hq.
  pose proof (recordWatchedSegment_grows d s He) as (R1 & R2 & R3).
  destruct e; simpl in Hq; try contradiction; cbn [handle].
  - unfold handlePlay. change (videoRef (setIsPlaying true s)) with (videoRef s).
    destruct (videoRef s); repeat split; try (left; reflexivity); fields; lra.
  - pose proof (recordWatchedSegment_grows d _ (Engine_setIsPlaying d false s He))
      as (P1 & P2 & P3).
    unfold handlePause. repeat split; [exact P1 | exact P2 | left; exact P3].
  - destruct (handleSeeked_fields s) as (-> & -> & ->). auto.
  - destruct (handleTimeUpdate_fields s) as [(-> & -> & ->)|(-> & -> & ->)];
      repeat split; auto; lra.
  - pose proof (recordWatchedSegment_grows d _ (Engine_setIsPlaying d false s He))
      as (P1 & P2 & P3).
    unfold handleEnded. repeat split; [exact P1 | exact P2 | left; exact P3].
  - unfold handleLoadedMetadata. destruct (videoRef s) as [video|] eqn:Hv;
      [|repeat split; try (left; reflexivity); lra].
    fields. split; [lra|]. split; [lra|].
    destruct (engine_video d s He video Hv) as (_ & _ & Hdur).
    destruct (engine_total d s He) as [Ht|Ht].
    + right. split; [exact Ht | exact Hdur].
    + left. now rewrite Hdur, Ht.
  - destruct (same_grows s (saveProgressToStorage now s)
                eq_refl eq_refl eq_refl) as (A & B & C). auto.
  - destruct (videoRef s) as [video|].
    + destruct (same_grows s (setVideoRef (Some (mkVideo t isPaused (duration video))) s)
                  eq_refl eq_refl eq_refl) as (A & B & C). auto.
    + repeat split; try (left; reflexivity); lra.
Qed.

Lemma updateDisplay_keeps (s : State) :
  watchedIntervals (updateDisplay s) = watchedIntervals s /\
  sessionWatchedTime (updateDisplay s) = sessionWatchedTime s /\
  totalDuration (updateDisplay s) = totalDuration s /\
  uniqueWatchedTime (updateDisplay s) = calculateUniqueTime (watchedIntervals s).
Proof.
  unfold updateDisplay.
  destruct (gtb (totalDuration (setUniqueWatchedTime _ s)) 0);
    repeat split; reflexivity.
Qed.

Lemma progress_of_total (d : Q) (s : State) :
  0 < d -> Engine d s -> Settled s ->
  (totalDuration s = 0 /\ currentProgress s == 0) \/
  (totalDuration s = d /\
   currentProgress s == calculateUniqueTime (watchedIntervals s) / d * 100).
Proof.
  intros Hd He Hs. destruct (engine_total d s He) as [Ht|Ht].
  - left. split; [exact Ht | exact (engine_idle d s He Ht)].
  - right. split; [exact Ht|].
    assert (Hpos : 0 < totalDuration s) by (rewrite Ht; exact Hd).
    pose proof (Hs Hpos) as E. rewrite Ht in E. exact E.
Qed.

Lemma percent_mono (d a b : Q) : 0 < d -> a <= b -> a / d * 100 <= b / d * 100.
Proof.
  intros Hd Hab. unfold Qdiv.
  assert (Hi : 0 < / d) by now apply Qinv_lt_0_compat.
  assert (H : a * / d <= b * / d) by (apply Qmult_le_compat_r; lra). lra.
Qed.

Lemma percent_nonneg (d a : Q) : 0 < d -> 0 <= a -> 0 <= a / d * 100.
Proof.
  intros Hd Ha. setoid_replace 0 with (0 / d * 100) at 1 by (unfold Qdiv; ring).
  now apply percent_mono.
Qed.

(** X12.  A session loses nothing by being watched.  From any reachable
    state, an event that neither loads, resets nor mounts again (play, pause,
    seeked, time update, ended, metadata, save, the player moving) leaves the
    session time, the unique time and the progress at least as large as they
    were. *)
Theorem quiet_events_never_lose_progress (d : Q) (s : State) (e : Event) :
  0 < d -> reachable d s -> allowed d e -> quiet e ->
  sessionWatchedTime s <= sessionWatchedTime (dispatch d e s) /\
  calculateUniqueTime (watchedIntervals s)
  <= calculateUniqueTime (watchedIntervals (dispatch d e s)) /\
  currentProgress s <= currentProgress (dispatch d e s).
Proof.
  intros Hd Hr Ha Hq.
  destruct (reachable_Engine d Hd s Hr) as [He Hs].
  destruct (reachable_Engine d Hd _ (reachable_step d s e Hr Ha)) as [He' Hs'].
  destruct (quiet_handle_grows d e s Hd He Hq) as (G1 & G2 & G3).
  unfold dispatch in *.
  destruct (updateDisplay_keeps (handle d e s)) as (K1 & K2 & K3 & _).
  rewrite K1, K2. split; [exact G1|]. split; [exact G2|].
  assert (H0 : 0 <= calculateUniqueTime (watchedIntervals s)).
  { apply uniqueTime_nonneg, inside_wellFormed with (d := d).
    apply (engine_intervals d s He). }
  destruct (progress_of_total d s Hd He Hs) as [[Ht Hp]|[Ht Hp]];
    destruct (progress_of_total d _ Hd He' Hs') as [[Ht' Hp']|[Ht' Hp']];
    rewrite Hp, Hp'; rewrite ?K1.
  - lra.
  - apply percent_nonneg; [exact Hd | lra].
  - exfalso. rewrite K3 in Ht'.
    destruct G3 as [G3|[G3 G4]]; [rewrite G3, Ht in Ht' | rewrite G4 in Ht'];
      rewrite Ht' in Hd; lra.
  - now apply percent_mono.
Qed.

(** X12 at scenario E: after the pause at 37 the [ended] event comes. *)
Lemma quiet_events_never_lose_progress_witness :
  currentProgress scenarioE <= currentProgress (dispatch 100 Ended scenarioE).
Proof.
  exact (proj2 (proj2 (quiet_events_never_lose_progress 100 scenarioE Ended
                         eq_refl scenarioE_reachable I I))).
Defined.

(** ** What every reachable state shows *)

Lemma orZero_nonneg (x : Q) : 0 <= x -> 0 <= orZero x.
Proof. unfold orZero. destruct (truthy x); lra. Qed.

Lemma Counters_recordWatchedSegment (s : State) :
  Counters s -> Counters (recordWatchedSegment s).
Proof.
  destruct s as [l pr u tot ses pl cws lp r v item].
  unfold Counters, recordWatchedSegment. fields. intros [H1 H2].
  destruct cws as [t|], v as [video|]; fields; try (split; assumption).
  destruct (gtb (currentTime video) t && geb (currentTime video - t) (1#2)) eqn:E;
    fields; [|split; assumption].
  apply andb_true_iff in E. destruct E as [E _]. apply gtb_true in E.
  split; [lra | exact H2].
Qed.

Lemma Counters_same (s s' : State) :
  sessionWatchedTime s' = sessionWatchedTime s ->
  sessionStorage s' = sessionStorage s ->
  Counters s -> Counters s'.
Proof. unfold Counters. now intros -> ->. Qed.

Lemma Counters_handle (d : Q) (e : Event) (s : State) :
  Counters s -> Counters (handle d e s).
Proof.
  intros Hc. destruct e; cbn [handle].
  - unfold handlePlay. change (videoRef (setIsPlaying true s)) with (videoRef s).
    destruct (videoRef s); exact Hc.
  - apply Counters_recordWatchedSegment. exact Hc.
  - unfold handleSeeked.
    pose proof (Counters_recordWatchedSegment s Hc) as Hr.
    destruct (videoRef (recordWatchedSegment s)) as [video|];
      [destruct (negb (paused video))|]; exact Hr.
  - unfold handleTimeUpdate. destruct (videoRef s) as [video|]; [|exact Hc].
    destruct (gtb _ 2); [|exact Hc].
    pose proof (Counters_recordWatchedSegment s Hc) as Hr.
    destruct (negb (paused video)); exact Hr.
  - apply Counters_recordWatchedSegment. exact Hc.
  - unfold handleLoadedMetadata. destruct (videoRef s); exact Hc.
  - destruct s as [l pr u tot ses pl cws lp r v item].
    unfold Counters, loadProgress, resumePosition in *. fields.
    destruct Hc as [H1 H2]. destruct item as [| |data]; fields;
      try (split; assumption).
    destruct v as [video|], (ProgressData.lastPosition data) as [p|]; fields;
      try (split; assumption).
    destruct (truthy p && negb r); fields; split; assumption.
  - destruct Hc as [H1 H2]. split; [exact H1|].
    unfold saveProgressToStorage, progressData. fields.
    cbn [ProgressData.sessionTime fieldOrZero]. now apply orZero_nonneg.
  - destruct s as [l pr u tot ses pl cws lp r v item].
    unfold Counters, resetProgress. fields.
    destruct v; fields; split; try exact I; lra.
  - destruct (videoRef s); exact Hc.
  - destruct Hc as [_ H2]. split; [fields; lra | exact H2].
Qed.

Lemma Counters_updateDisplay (s : State) :
  Counters s -> Counters (updateDisplay s).
Proof.
  destruct (updateDisplay_fields s) as (_ & E1 & _ & E2).
  now apply Counters_same.
Qed.

Lemma reachable_Counters (d : Q) (s : State) :
  reachable d s ->
  Counters s /\ uniqueWatchedTime s = calculateUniqueTime (watchedIntervals s).
Proof.
  induction 1 as [|s e Hr [IH _] Ha].
  - split; [|reflexivity]. split; [fields; lra | exact I].
  - split.
    + apply Counters_updateDisplay, Counters_handle, IH.
    + unfold dispatch.
      destruct (updateDisplay_keeps (handle d e s)) as (-> & _ & _ & ->).
      reflexivity.
Qed.

(** X13.  The component's own sessions keep the coverage-set invariant.  In
    every reachable state, right after a load too, the watched intervals are a
    coverage set of intervals with [0 <= start <= end <= d], their unique time
    is at most the duration [d], an open segment starts inside the video, and
    a stored item holds intervals of the same kind. *)
Theorem reachable_intervals_are_a_coverage_set (d : Q) (s : State) :
  0 < d -> reachable d s ->
  CoverageSet (watchedIntervals s) /\
  (forall i, In i (watchedIntervals s) ->
             0 <= start i /\ start i <= end_ i /\ end_ i <= d) /\
  calculateUniqueTime (watchedIntervals s) <= d /\
  (forall t, currentWatchStart s = Some t -> 0 <= t /\ t <= d) /\
  (forall data, sessionStorage s = Item data ->
     CoverageSet (fieldOrEmpty (ProgressData.intervals data)) /\
     (forall i, In i (fieldOrEmpty (ProgressData.intervals data)) ->
                0 <= start i /\ start i <= end_ i /\ end_ i <= d)).
Proof.
  intros Hd Hr. destruct (reachable_Engine d Hd s Hr) as [He _].
  destruct He as [[Hc Hi] Hst _ Hs _ _].
  split; [exact Hc|]. split; [|split; [|split]].
  - intros i Hin. exact (proj1 (Forall_forall _ _) Hi i Hin).
  - apply uniqueTime_le_duration; [lra | now split].
  - exact Hs.
  - intros data E. rewrite E in Hst. destruct Hst as [[Hc' Hi'] _].
    split; [exact Hc'|]. intros i Hin.
    exact (proj1 (Forall_forall _ _) Hi' i Hin).
Qed.

Lemma reachable_intervals_are_a_coverage_set_witness :
  CoverageSet (watchedIntervals (dispatch 100 LoadProgress
                                   (dispatch 100 (SaveProgress 0) scenarioE))).
Proof.
  refine (proj1 (reachable_intervals_are_a_coverage_set 100 _ eq_refl _)).
  apply reachable_step;
    [apply reachable_step; [apply scenarioE_reachable | exact I] | exact I].
Defined.

(** X14.  The numbers on display.  In every reachable state the unique
    watched time shown is the sum over the watched intervals, it lies between
    0 and the duration [d], and neither the progress nor the session time is
    negative. *)
Theorem reachable_display_is_consistent (d : Q) (s : State) :
  0 < d -> reachable d s ->
  uniqueWatchedTime s = calculateUniqueTime (watchedIntervals s) /\
  0 <= uniqueWatchedTime s /\ uniqueWatchedTime s <= d /\
  0 <= currentProgress s /\
  0 <= sessionWatchedTime s.
Proof.
  intros Hd Hr. destruct (reachable_Engine d Hd s Hr) as [He Hs].
  destruct (reachable_Counters d s Hr) as [[Hses _] Hu].
  assert (H0 : 0 <= calculateUniqueTime (watchedIntervals s)).
  { apply uniqueTime_nonneg, inside_wellFormed with (d := d).
    apply (engine_intervals d s He). }
  assert (H1 : calculateUniqueTime (watchedIntervals s) <= d).
  { apply uniqueTime_le_duration; [lra | apply (engine_intervals d s He)]. }
  rewrite Hu. repeat split; try assumption.
  destruct (progress_of_total d s Hd He Hs) as [[_ Hp]|[_ Hp]]; rewrite Hp;
    [lra | now apply percent_nonneg].
Qed.

Lemma reachable_display_is_consistent_witness :
  uniqueWatchedTime scenarioE
  = calculateUniqueTime (watchedIntervals scenarioE).
Proof.
  exact (proj1 (reachable_display_is_consistent 100 scenarioE eq_refl
                  scenarioE_reachable)).
Defined.

(** ** [formatTime] *)

Lemma div60 (x : Q) : 60 * (x / 60) == x.
Proof. field. Qed.

Lemma remainder_nonneg (x : Q) :
  0 <= x -> remainder x 60 == x - 60 * inject_Z (formatMinutes x).
Proof.
  intros Hx. unfold remainder, Math_trunc, formatMinutes, Math_floor.
  assert (H : Qle_bool 0 (x / 60) = true).
  { apply Qle_bool_iff. pose proof (div60 x). lra. }
  rewrite H. reflexivity.
Qed.

Lemma format_parts (x : Q) :
  0 <= x ->
  (0 <= formatMinutes x)%Z /\
  (0 <= formatSeconds x <= 60)%Z /\
  x - (1#2) < 60 * inject_Z (formatMinutes x) + inject_Z (formatSeconds x) /\
  60 * inject_Z (formatMinutes x) + inject_Z (formatSeconds x) <= x + (1#2) /\
  (formatSeconds x = 60%Z <->
   (119#2) <= x - 60 * inject_Z (formatMinutes x)).
Proof.
  intros Hx. pose proof (remainder_nonneg x Hx) as Hr.
  pose proof (div60 x) as Hd.
  pose proof (Qfloor_le (x / 60)) as F1. pose proof (Qlt_floor (x / 60)) as F2.
  change (Qfloor (x / 60)) with (formatMinutes x) in F1, F2.
  rewrite inject_Z_plus in F2. change (inject_Z 1) with 1 in F2.
  set (m := inject_Z (formatMinutes x)) in *.
  set (r := remainder x 60) in *.
  assert (R0 : 0 <= r) by lra. assert (R1 : r < 60) by lra.
  pose proof (Qfloor_le (r + (1#2))) as G1.
  pose proof (Qlt_floor (r + (1#2))) as G2.
  change (Qfloor (r + (1#2))) with (formatSeconds x) in G1, G2.
  rewrite inject_Z_plus in G2. change (inject_Z 1) with 1 in G2.
  assert (M0 : (0 <= formatMinutes x)%Z).
  { change (Qfloor 0 <= Qfloor (x / 60))%Z. apply Qfloor_resp_le. lra. }
  assert (S0 : (0 <= formatSeconds x)%Z).
  { change (Qfloor 0 <= Qfloor (r + (1#2)))%Z. apply Qfloor_resp_le. lra. }
  assert (S1 : (formatSeconds x <= 60)%Z).
  { change (Qfloor (r + (1#2)) <= Qfloor (121#2))%Z.
    apply Qfloor_resp_le. lra. }
  split; [exact M0|]. split; [split; assumption|].
  split; [lra|]. split; [lra|]. split.
  - intros E. rewrite E in G1. change (inject_Z 60) with 60 in G1. lra.
  - intros H. apply Z.le_antisymm; [exact S1|].
    change (Qfloor 60 <= Qfloor (r + (1#2)))%Z. apply Qfloor_resp_le. lra.
Qed.

Lemma two_digits (n : nat) :
  (n <= 60)%nat ->
  String.length (padStart 2 "0"%string (toString (Z.of_nat n))) = 2%nat.
Proof.
  intros Hn. do 61 (destruct n as [|n]; [reflexivity|]). lia.
Qed.

(** X15.  [formatTime] of a time that is not negative: minutes and seconds
    are not negative, the seconds are written with two characters, and the
    time shown is within half a second of the time given.  The seconds run
    from 0 to 60, not 59: they read 60 exactly when the time is within half a
    second below a full minute, which is then shown as [m:60] and not as the
    next minute. *)
Theorem formatTime_reads (seconds : Q) :
  0 <= seconds ->
  (0 <= formatMinutes seconds)%Z /\
  (0 <= formatSeconds seconds <= 60)%Z /\
  String.length (padStart 2 "0"%string (toString (formatSeconds seconds)))
    = 2%nat /\
  seconds - (1#2)
    < 60 * inject_Z (formatMinutes seconds) + inject_Z (formatSeconds seconds) /\
  60 * inject_Z (formatMinutes seconds) + inject_Z (formatSeconds seconds)
    <= seconds + (1#2) /\
  (formatSeconds seconds = 60%Z <->
   (119#2) <= seconds - 60 * inject_Z (formatMinutes seconds)).
Proof.
  intros Hx. destruct (format_parts seconds Hx) as (M & S & A & B & C).
  split; [exact M|]. split; [exact S|]. split; [|auto].
  rewrite <- (Z2Nat.id (formatSeconds seconds)) by apply S.
  apply two_digits. lia.
Qed.

(** X15 at 59.5 seconds, and at 65. *)
Lemma formatTime_reads_witness :
  formatSeconds (119#2) = 60%Z /\
  formatTime (119#2) = "0:60"%string /\
  formatTime 65 = "1:05"%string.
Proof.
  split; [|split; reflexivity].
  apply (proj2 (proj2 (proj2 (proj2 (proj2
           (formatTime_reads (119#2) ltac:(lra))))))).
  apply Qle_bool_iff. reflexivity.
Defined.

(** ** The timeline bars *)

Lemma segmentBars_map (s : State) :
  0 < totalDuration s ->
  segmentBars s = map (barOf (totalDuration s)) (watchedIntervals s).
Proof.
  intros H. unfold segmentBars. apply gtb_true in H. now rewrite H.
Qed.

Lemma percent_add (t a b : Q) :
  (a + b) / t * 100 == a / t * 100 + b / t * 100.
Proof. unfold Qdiv. ring. Qed.

Lemma totalWidth_bounds (t : Q) (l : list Interval) :
  0 < t -> Forall wellFormed l ->
  calculateUniqueTime l / t * 100 <= totalWidth (map (barOf t) l) /\
  totalWidth (map (barOf t) l)
  <= calculateUniqueTime l / t * 100
     + (1#2) * inject_Z (Z.of_nat (length l)).
Proof.
  intros Ht. induction 1 as [|x l Hx Hl IH].
  - assert (E : calculateUniqueTime [] / t * 100 == 0)
      by (rewrite uniqueTime_nil; unfold Qdiv; ring).
    rewrite E. cbn [map totalWidth length Z.of_nat].
    change (inject_Z 0) with 0. lra.
  - assert (E : calculateUniqueTime (x :: l) / t * 100
                == lengthOf x / t * 100 + calculateUniqueTime l / t * 100).
    { rewrite uniqueTime_cons. apply percent_add. }
    rewrite E. cbn [map totalWidth barOf barWidth length].
    rewrite Nat2Z.inj_succ. unfold Z.succ. rewrite inject_Z_plus.
    change (inject_Z 1) with 1.
    assert (W0 : 0 <= lengthOf x / t * 100).
    { apply percent_nonneg; [exact Ht|]. unfold wellFormed, lengthOf in *. lra. }
    fold (lengthOf x).
    destruct (Math_max_cases (lengthOf x / t * 100) (1#2)) as [[H ->]|[H ->]];
      lra.
Qed.

Lemma barOf_left (d t : Q) (i : Interval) :
  0 < t -> t = d -> inside d i ->
  0 <= barLeft (barOf t i) /\ barLeft (barOf t i) <= 100 /\
  1#2 <= barWidth (barOf t i).
Proof.
  intros Ht -> (H0 & H1 & H2). cbn [barOf barLeft barWidth].
  split; [apply percent_nonneg; assumption|].
  split; [apply progress_bound; [assumption | lra]|].
  apply Math_max_ge_r.
Qed.

(** X16.  The timeline of a reachable state with a known duration: one bar
    per watched interval, every bar starting between 0 and 100 percent and at
    least half a percent wide.  Because short bars are widened to half a
    percent, the bars together are at least as wide as the progress shown,
    and wider by at most half a percent per bar. *)
Theorem timeline_bars (d : Q) (s : State) :
  0 < d -> reachable d s -> 0 < totalDuration s ->
  length (segmentBars s) = length (watchedIntervals s) /\
  (forall b, In b (segmentBars s) ->
     0 <= barLeft b /\ barLeft b <= 100 /\ 1#2 <= barWidth b) /\
  currentProgress s <= totalWidth (segmentBars s) /\
  totalWidth (segmentBars s)
  <= currentProgress s
     + (1#2) * inject_Z (Z.of_nat (length (watchedIntervals s))).
Proof.
  intros Hd Hr Ht. destruct (reachable_Engine d Hd s Hr) as [He Hs].
  destruct (engine_intervals d s He) as [_ Hi].
  assert (Etot : totalDuration s = d).
  { destruct (engine_total d s He) as [E|E]; [|exact E].
    rewrite E in Ht. lra. }
  rewrite (segmentBars_map s Ht), (Hs Ht).
  split; [apply length_map|]. split.
  - intros b Hb. apply in_map_iff in Hb. destruct Hb as (i & <- & Hin).
    apply (barOf_left d); [exact Ht | exact Etot |].
    exact (proj1 (Forall_forall _ _) Hi i Hin).
  - apply totalWidth_bounds; [exact Ht|].
    now apply inside_wellFormed with (d := d).
Qed.

Lemma timeline_bars_witness :
  length (segmentBars scenarioE) = 1%nat /\
  currentProgress scenarioE <= totalWidth (segmentBars scenarioE).
Proof.
  destruct (timeline_bars 100 scenarioE eq_refl scenarioE_reachable eq_refl)
    as (H1 & _ & H2 & _).
  split; [exact H1 | exact H2].
Defined.

(** ** Loading what is not there *)

(** X17.  [loadProgress] with nothing usable in the storage.  With no item,
    or an item that does not parse, the state stays as it is.  With an object
    that lacks [intervals], [sessionTime] and [lastPosition], the watched
    intervals become empty, the session time becomes 0, and the player, the
    last position and the resumed flag stay as they are. *)
Theorem loadProgress_missing_data (s : State) :
  (sessionStorage s = NoItem \/ sessionStorage s = Unparsable ->
   loadProgress s = s) /\
  (forall t ts pp,
     let data := ProgressData.mk None None t None ts pp in
     watchedIntervals (loadProgress (withItem data s)) = [] /\
     sessionWatchedTime (loadProgress (withItem data s)) = 0 /\
     videoRef (loadProgress (withItem data s)) = videoRef s /\
     lastPosition (loadProgress (withItem data s)) = lastPosition s /\
     hasResumed (loadProgress (withItem data s)) = hasResumed s).
Proof.
  split.
  - intros [H|H]; unfold loadProgress; now rewrite H.
  - intros t ts pp data.
    rewrite (loadProgress_intervals s data), (loadProgress_sessionTime s data).
    pose proof (loadProgress_resume s data) as L.
    assert (E : resumePosition s data = None)
      by (unfold resumePosition; destruct (videoRef s); reflexivity).
    rewrite E in L. split; [reflexivity|]. split; [reflexivity | exact L].
Qed.
